(** * Grand Fishing: the packed ship record, the active-cell map with its
      ring buffer of cell timers, and the per-tick ship state machine.

    Shallow embedding of [src/main.cpp].  Machine integers are [Z] with the
    wrap-around of their C++ type written out ([u64], [u8], [s64]); the
    [std::unordered_map] of active cells is a [gmap Z Z]; the vectors are
    lists.  Every draw from a random distribution is an input of the model. *)

From Stdlib Require Import ZArith Lia Bool.
From stdpp Require Import base gmap list.

Local Open Scope Z_scope.

(** ** Machine integers *)

(** [uint64_t] arithmetic wraps modulo 2^64. *)
Definition u64 (z : Z) : Z := z mod 2 ^ 64.

(** [uint8_t] arithmetic wraps modulo 2^8. *)
Definition u8 (z : Z) : Z := z mod 2 ^ 8.

(** [static_cast<long long>] of a 64-bit unsigned value. *)
Definition s64 (z : Z) : Z := if z <? 2 ^ 63 then z else z - 2 ^ 64.

(** ** Constants of the simulation (lines 13-19) *)

Definition WIDTH : Z := 1000.
Definition HEIGHT : Z := 1000.
(** The macro is [WIDTH* HEIGHT - 1]; every use in the source expands to an
    expression where the missing parentheses change nothing. *)
Definition POSITION_BOUND : Z := WIDTH * HEIGHT - 1.
Definition SHIP_COUNT : Z := 100000.
Definition WIN_FISH_COUNT : Z := 10000.

(** [enum ShipType] *)
Definition GREEDY : Z := 0.
Definition LAZY : Z := 1.
Definition RESTLESS : Z := 2.

(** [enum ShipState] *)
Definition FLOATING : Z := 0.
Definition FISHING : Z := 1.
Definition FINISHING : Z := 2.
Definition DEAD : Z := 3.

(** ** Shifts and masks of the packed record (lines 64-74) *)

Definition STATE_SHIFT : Z := 2.
Definition TIMER_SHIFT : Z := 4.
Definition FISH_SHIFT : Z := 6.
Definition POSITION_SHIFT : Z := 20.
Definition OFFSET_X_SHIFT : Z := 54.
Definition OFFSET_Y_SHIFT : Z := 58.
Definition MASK_2BIT : Z := 0x3.
Definition MASK_4BIT : Z := 0xF.
Definition MASK_14BIT : Z := 0x3FFF.
Definition MASK_34BIT : Z := 0x3FFFFFFFF.

(** [setbits] (lines 88-93): clear the field, then write the masked value.
    All operands are [uint64_t]. *)
Definition setbits (n shift mask value : Z) : Z :=
  let n := Z.land n (u64 (Z.lnot (u64 (Z.shiftl mask shift)))) in
  let n := Z.lor n (u64 (Z.shiftl (Z.land value mask) shift)) in
  n.

(** The read idiom of the source, [(ship >> SHIFT) & MASK]. *)
Definition getbits (n shift mask : Z) : Z := Z.land (Z.shiftr n shift) mask.

(** ** The packed layout as a table *)

Inductive Field : Set :=
  | F_TYPE | F_STATE | F_TIMER | F_FISH | F_POSITION | F_OFFSET_X | F_OFFSET_Y.

(** The type field sits at bit 0: the source reads it as [ship & MASK_2BIT]. *)
Definition field_shift (f : Field) : Z :=
  match f with
  | F_TYPE => 0
  | F_STATE => STATE_SHIFT
  | F_TIMER => TIMER_SHIFT
  | F_FISH => FISH_SHIFT
  | F_POSITION => POSITION_SHIFT
  | F_OFFSET_X => OFFSET_X_SHIFT
  | F_OFFSET_Y => OFFSET_Y_SHIFT
  end.

Definition field_mask (f : Field) : Z :=
  match f with
  | F_TYPE | F_STATE | F_TIMER => MASK_2BIT
  | F_FISH => MASK_14BIT
  | F_POSITION => MASK_34BIT
  | F_OFFSET_X | F_OFFSET_Y => MASK_4BIT
  end.

Definition field_width (f : Field) : Z :=
  match f with
  | F_TYPE | F_STATE | F_TIMER => 2
  | F_FISH => 14
  | F_POSITION => 34
  | F_OFFSET_X | F_OFFSET_Y => 4
  end.

Definition getField (record : Z) (f : Field) : Z :=
  getbits record (field_shift f) (field_mask f).

Definition withField (record : Z) (f : Field) (value : Z) : Z :=
  setbits record (field_shift f) (field_mask f) value.

(** A bit index belongs to a field. *)
Definition in_field (f : Field) (i : Z) : Prop :=
  field_shift f <= i < field_shift f + field_width f.

(** The signed offsets: the 4-bit field minus the bias 8 (lines 199-202). *)
Definition offsetX (ship : Z) : Z := getbits ship OFFSET_X_SHIFT MASK_4BIT - 8.
Definition offsetY (ship : Z) : Z := getbits ship OFFSET_Y_SHIFT MASK_4BIT - 8.

(** A record is a 64-bit word. *)
Definition is_u64 (z : Z) : Prop := 0 <= z < 2 ^ 64.

(** ** Random draws

    Each call of a distribution on the shared [std::mt19937] is an input of
    the model.  One [Draws] record holds the values the loop body may draw
    while it updates one ship; a branch that does not call a distribution
    ignores the matching component. *)

Record Draws : Set := mkDraws {
  shipTimerRng : Z;    (* uniform {1,3}: the next countdown *)
  catchRng : Z;        (* uniform {1,10}: the requested catch *)
  fishRng : Z;         (* uniform {0,15}: fish of a cell being activated *)
  cellTimerRnd : Z;    (* uniform {15,30}: time-to-live of an activated cell *)
  shipOffsetRng1 : Z;  (* uniform {0,15}: first call, the raw X offset *)
  shipOffsetRng2 : Z   (* uniform {0,15}: second call, the raw Y offset *)
}.

Definition valid_draws (d : Draws) : Prop :=
  1 <= shipTimerRng d <= 3 /\ 1 <= catchRng d <= 10 /\
  0 <= fishRng d <= 15 /\ 15 <= cellTimerRnd d <= 30 /\
  0 <= shipOffsetRng1 d <= 15 /\ 0 <= shipOffsetRng2 d <= 15.

(** The draws of the initialization loop (lines 140-143). *)
Record InitDraws : Set := mkInitDraws {
  shipTypeRng : Z;      (* uniform {0,2} *)
  initTimerRng : Z;     (* shipTimerRng, uniform {1,3} *)
  shipPositionRng : Z   (* uniform {0,POSITION_BOUND} *)
}.

Definition valid_init_draws (d : InitDraws) : Prop :=
  0 <= shipTypeRng d <= 2 /\ 1 <= initTimerRng d <= 3 /\
  0 <= shipPositionRng d <= POSITION_BOUND.

(** ** Simulation state *)

(** What the loop body shares between ships: the active cells, the ring
    buffer of cell timers and the counter of live ships. *)
Record World : Type := mkWorld {
  activeCells : gmap Z Z;
  cellsTimers : list (list Z);
  activeShips : Z
}.

Record Sim : Type := mkSim {
  ships : list Z;
  world : World;
  tick : Z
}.

(** ** Initialization (lines 108-150) *)

(** One iteration of the initialization loop (lines 139-145).  The two
    offset fields are left at raw 0. *)
Definition init_ship (d : InitDraws) : Z :=
  let ship := 0 in
  let ship := Z.lor ship (u64 (shipTypeRng d)) in
  let ship := Z.lor ship (u64 (Z.shiftl FISHING STATE_SHIFT)) in
  let ship := Z.lor ship (u64 (Z.shiftl (initTimerRng d) TIMER_SHIFT)) in
  let ship := Z.lor ship (u64 (Z.shiftl (shipPositionRng d) POSITION_SHIFT)) in
  ship.

Definition init_world : World :=
  {| activeCells := ∅; cellsTimers := replicate 30 []; activeShips := SHIP_COUNT |}.

Definition init_sim (rnd : nat -> InitDraws) : Sim :=
  {| ships := map (fun i => init_ship (rnd i)) (seq 0 (Z.to_nat SHIP_COUNT));
     world := init_world;
     tick := 1 |}.

(** ** Expiry of cells (lines 172-180) *)

Definition expire (tick : Z) (w : World) : World :=
  let expiringGroupIdx := Z.to_nat (tick mod 30) in
  let expiring := default [] (cellsTimers w !! expiringGroupIdx) in
  {| activeCells := foldl (fun cells cellIdx => delete cellIdx cells) (activeCells w) expiring;
     cellsTimers := <[expiringGroupIdx := []]> (cellsTimers w);
     activeShips := activeShips w |}.

(** ** The floating branch (lines 193-300) *)

Definition floating (d : Draws) (ship : Z) : Z :=
  let shipPosition := getbits ship POSITION_SHIFT MASK_34BIT in
  let offsetX := getbits ship OFFSET_X_SHIFT MASK_4BIT - 8 in
  let offsetY := getbits ship OFFSET_Y_SHIFT MASK_4BIT - 8 in
  if (offsetX =? 0) && (offsetY =? 0) then
    let ship := setbits ship STATE_SHIFT MASK_2BIT FISHING in
    setbits ship TIMER_SHIFT MASK_2BIT (u64 (shipTimerRng d))
  else if 0 <? offsetX then
    let offsetX := offsetX - 1 in
    let shipPosition := u64 (shipPosition + 1) in
    let shipPosition := if POSITION_BOUND <? shipPosition then 0 else shipPosition in
    let ship := setbits ship OFFSET_X_SHIFT MASK_4BIT (u64 (offsetX + 8)) in
    setbits ship POSITION_SHIFT MASK_34BIT shipPosition
  else if offsetX <? 0 then
    let offsetX := offsetX + 1 in
    let shipPosition := u64 (shipPosition - 1) in
    let shipPosition := if POSITION_BOUND <? shipPosition then POSITION_BOUND else shipPosition in
    let ship := setbits ship OFFSET_X_SHIFT MASK_4BIT (u64 (offsetX + 8)) in
    setbits ship POSITION_SHIFT MASK_34BIT shipPosition
  else if 0 <? offsetY then
    let offsetY := offsetY - 1 in
    let shipPosition :=
      if shipPosition <? WIDTH
      then u64 (POSITION_BOUND - (WIDTH - shipPosition - 1))
      else u64 (shipPosition - WIDTH) in
    let ship := setbits ship OFFSET_Y_SHIFT MASK_4BIT (u64 (offsetY + 8)) in
    setbits ship POSITION_SHIFT MASK_34BIT shipPosition
  else if offsetY <? 0 then
    let offsetY := offsetY + 1 in
    let shipPosition :=
      if POSITION_BOUND <? u64 (shipPosition + WIDTH)
      then u64 (WIDTH - (POSITION_BOUND - shipPosition) - 1)
      else u64 (shipPosition + WIDTH) in
    let ship := setbits ship OFFSET_Y_SHIFT MASK_4BIT (u64 (offsetY + 8)) in
    setbits ship POSITION_SHIFT MASK_34BIT shipPosition
  else ship.

(** ** The fishing branch (lines 301-426) *)

(** Lines 335-340, repeated at lines 355-360: the catch is cut down to what
    the cell holds.  Returns the actual catch and what is left in the cell;
    both are [uint8_t]. *)
Definition take_fish (fishCatched cellFishCounter : Z) : Z * Z :=
  if cellFishCounter <? fishCatched
  then (cellFishCounter, 0)
  else (fishCatched, u8 (cellFishCounter - fishCatched)).

(** Lines 324-364: look the cell up, activate it when it is absent (draw its
    fish, store it, put it into the ring buffer), take the catch out of it.
    Returns the actual catch, the fish left in the cell, and the world. *)
Definition consume (tick : Z) (d : Draws) (w : World)
    (shipPosition fishCatched : Z) : Z * Z * World :=
  match activeCells w !! shipPosition with
  | None =>
      let cellFishCounter := u8 (fishRng d) in
      let '(fishCatched, cellFishCounter) := take_fish fishCatched cellFishCounter in
      let cellTimeout := cellTimerRnd d in
      let timerIdx := Z.to_nat (u64 (tick + u64 cellTimeout) mod 30) in
      (fishCatched, cellFishCounter,
       {| activeCells := <[shipPosition := cellFishCounter]> (activeCells w);
          cellsTimers := alter (fun cells => cells ++ [shipPosition]) timerIdx (cellsTimers w);
          activeShips := activeShips w |})
  | Some stored =>
      let cellFishCounter := stored in
      let '(fishCatched, cellFishCounter) := take_fish fishCatched cellFishCounter in
      (fishCatched, cellFishCounter,
       {| activeCells := <[shipPosition := cellFishCounter]> (activeCells w);
          cellsTimers := cellsTimers w;
          activeShips := activeShips w |})
  end.

(** Lines 378-423: what a ship that has not won does after its catch. *)
Definition after_catch (d : Draws) (shipType cellFishCounter ship : Z) : Z :=
  if shipType =? GREEDY then
    if cellFishCounter =? 0 then
      let ship := setbits ship OFFSET_X_SHIFT MASK_4BIT (u64 (shipOffsetRng1 d)) in
      let ship := setbits ship OFFSET_Y_SHIFT MASK_4BIT (u64 (shipOffsetRng2 d)) in
      setbits ship STATE_SHIFT MASK_2BIT FLOATING
    else setbits ship TIMER_SHIFT MASK_2BIT (u64 (shipTimerRng d))
  else if shipType =? LAZY then
    setbits ship TIMER_SHIFT MASK_2BIT (u64 (shipTimerRng d))
  else if shipType =? RESTLESS then
    let ship := setbits ship OFFSET_X_SHIFT MASK_4BIT (1 + 8) in
    setbits ship STATE_SHIFT MASK_2BIT FLOATING
  else ship.

Definition fishing (tick : Z) (d : Draws) (w : World) (shipType ship : Z) : World * Z :=
  let shipPosition := getbits ship POSITION_SHIFT MASK_34BIT in
  let fishTimer := u8 (getbits ship TIMER_SHIFT MASK_2BIT) in
  let fishTimer := u8 (fishTimer - 1) in
  let ship := setbits ship TIMER_SHIFT MASK_2BIT fishTimer in
  if 0 <? fishTimer then (w, ship)
  else
    let fishCatched := u8 (catchRng d) in
    let '(fishCatched, cellFishCounter, w) := consume tick d w shipPosition fishCatched in
    let shipFishCounter := getbits ship FISH_SHIFT MASK_14BIT in
    let shipFishCounter := u64 (Z.min (s64 (u64 (shipFishCounter + fishCatched))) WIN_FISH_COUNT) in
    let ship := setbits ship FISH_SHIFT MASK_14BIT shipFishCounter in
    if shipFishCounter =? WIN_FISH_COUNT
    then (w, setbits ship STATE_SHIFT MASK_2BIT FINISHING)
    else (w, after_catch d shipType cellFishCounter ship).

(** ** The finishing branch (lines 427-450)

    [activeShips] is an [int]; it is the number of ships that are not Dead
    (lemma [reachable_activeShips]), so it never leaves the range of [int]
    and the decrement is plain subtraction. *)
Definition finishing (w : World) (ship : Z) : World * Z :=
  let shipPosition := getbits ship POSITION_SHIFT MASK_34BIT in
  let distanceLeft := u64 (WIDTH - (shipPosition mod WIDTH + 1)) in
  if distanceLeft =? 0 then
    ({| activeCells := activeCells w;
        cellsTimers := cellsTimers w;
        activeShips := activeShips w - 1 |},
     setbits ship STATE_SHIFT MASK_2BIT DEAD)
  else
    let shipPosition := u64 (shipPosition + 1) in
    (w, setbits ship POSITION_SHIFT MASK_34BIT shipPosition).

(** ** One iteration of the loop over the ships (lines 184-453) *)

Definition update_ship (tick : Z) (d : Draws) (w : World) (ship : Z) : World * Z :=
  let shipType := u8 (Z.land ship MASK_2BIT) in
  let shipState := u8 (getbits ship STATE_SHIFT MASK_2BIT) in
  if shipState =? DEAD then (w, ship)
  else if shipState =? FLOATING then (w, floating d ship)
  else if shipState =? FISHING then fishing tick d w shipType ship
  else if shipState =? FINISHING then finishing w ship
  else (w, ship).

(** The loop over the ships, in array order; [rnd i] holds the draws made
    while ship [i] is updated. *)
Fixpoint process_ships (tick : Z) (rnd : nat -> Draws) (i : nat)
    (ships : list Z) (w : World) : World * list Z :=
  match ships with
  | [] => (w, [])
  | ship :: rest =>
      let '(w, ship) := update_ship tick (rnd i) w ship in
      let '(w, rest) := process_ships tick rnd (S i) rest w in
      (w, ship :: rest)
  end.

(** ** One tick (lines 171-456) and runs of ticks *)

Definition sim_tick (rnd : nat -> Draws) (st : Sim) : Sim :=
  let w := expire (tick st) (world st) in
  let '(w, ships) := process_ships (tick st) rnd 0 (ships st) w in
  {| ships := ships; world := w; tick := u64 (tick st + 1) |}.

(** [run k o st]: [k] ticks from [st]; [o j] holds the draws of the [j]-th of
    them. *)
Fixpoint run (k : nat) (o : nat -> nat -> Draws) (st : Sim) : Sim :=
  match k with
  | O => st
  | S k => sim_tick (o k) (run k o st)
  end.

(** The world in the middle of the tick that starts in [st]: the due slot is
    drained and the first [n] ships are updated. *)
Definition mid_tick (rnd : nat -> Draws) (n : nat) (st : Sim) : World :=
  fst (process_ships (tick st) rnd 0 (take n (ships st)) (expire (tick st) (world st))).

(** States of the simulation at tick boundaries.  The main loop makes a tick
    only while [activeShips > 0]. *)
Inductive reachable : Sim -> Prop :=
  | reach_init (rnd : nat -> InitDraws) :
      (forall i, valid_init_draws (rnd i)) ->
      reachable (init_sim rnd)
  | reach_tick (rnd : nat -> Draws) (st : Sim) :
      reachable st ->
      0 < activeShips (world st) ->
      (forall i, valid_draws (rnd i)) ->
      reachable (sim_tick rnd st).

(** ** Invariants *)

(** Every stored amount is a [uint8_t], the value type of the map. *)
Definition cells_u8 (cells : gmap Z Z) : Prop :=
  forall (c v : Z), cells !! c = Some v -> 0 <= v < 256.

(** The ring buffer has its 30 slots, no cell is in it twice, and it holds
    exactly the cells of the map, whose amounts are bytes. *)
Definition world_inv (w : World) : Prop :=
  length (cellsTimers w) = 30%nat /\
  NoDup (concat (cellsTimers w)) /\
  (forall c : Z, c ∈ concat (cellsTimers w) <-> is_Some (activeCells w !! c)) /\
  cells_u8 (activeCells w).

(** A ship record of the simulation: a 64-bit word whose position is on the
    grid and whose catch is at most the winning count. *)
Definition ship_inv (ship : Z) : Prop :=
  is_u64 ship /\
  getField ship F_POSITION <= POSITION_BOUND /\
  getField ship F_FISH <= WIN_FISH_COUNT.

(** The fish of a cell before a catch: what the map stores, or, for a cell
    that is not active, the amount drawn for it. *)
Definition stored_before (d : Draws) (w : World) (cell : Z) : Z :=
  match activeCells w !! cell with
  | Some stored => stored
  | None => u8 (fishRng d)
  end.



(** A ship counts as live until it is Dead. *)
Definition live (ship : Z) : Z :=
  if getField ship F_STATE =? DEAD then 0 else 1.

Definition live_count (ships : list Z) : Z :=
  foldr (fun ship n => live ship + n) 0 ships.

(** ** Further invariants of the simulation *)

(** The type is one of the three of [enum ShipType], and a fishing ship has
    a countdown from 1 to 3. *)
Definition timer_inv (ship : Z) : Prop :=
  getField ship F_TYPE <= RESTLESS /\
  (getField ship F_STATE = FISHING -> 1 <= getField ship F_TIMER <= 3).

(** Every active cell is a cell of the grid and holds from 0 to 15 fish. *)
Definition cells_inv (cells : gmap Z Z) : Prop :=
  forall (c v : Z), cells !! c = Some v -> 0 <= c <= POSITION_BOUND /\ 0 <= v <= 15.

(** ** The renderer (Renderer.hpp)

    Only its integer computations are modelled; the view and the drawing
    are floating point and graphics, and the outcome of the culling test
    against the view rectangle is an input. *)

(** [Renderer::fishColorFromAmount] (lines 303-316): the red, green and blue
    components of the colour of a cell.  The division is the division of
    [int]. *)
Definition fishColorFromAmount (fish : Z) : Z * Z * Z :=
  let minG := 50 in
  let maxG := 255 in
  let maxFish := 15 in
  let clamped := if maxFish <? fish then maxFish else fish in
  let g := u8 (minG + Z.quot (clamped * (maxG - minG)) maxFish) in
  (0, g, 0).

(** Lines 196-197 and 243-244 of [drawScene]: column and row of a linear
    position on a grid of width [gridW]. *)
Definition cell_xy (gridW pos : Z) : Z * Z := (pos mod gridW, pos / gridW).

(** Lines 241-244: the cell the renderer draws a ship in. *)
Definition ship_cell (gridW ship : Z) : Z * Z :=
  let shipPosition := Z.land (Z.shiftr ship 20) 0x3FFFFFFFF in
  cell_xy gridW shipPosition.

Inductive Glyph : Set := Dot | Square | Triangle.

(** Lines 242 and 254-268: the shape drawn for a ship.  [outsideView] is the
    outcome of the floating-point test of line 254 (the centre of the ship's
    cell against the view rectangle), an input of the model: when it holds
    the loop body ends with [continue] and nothing is drawn; otherwise the
    shape goes by the state. *)
Definition ship_glyph (outsideView : bool) (ship : Z) : option Glyph :=
  let shipState := u8 (Z.land (Z.shiftr ship 2) 0x3) in
  if outsideView then None
  else if shipState =? 0 then Some Dot
  else if shipState =? 1 then Some Square
  else if shipState =? 2 then Some Triangle
  else None.

(** * Proofs *)

(** ** Bits of the machine-integer operations *)

Lemma testbit_u64 (z i : Z) : Z.testbit (u64 z) i = (i <? 64) && Z.testbit z i.
Proof. unfold u64. apply Z.testbit_mod_pow2. lia. Qed.

Lemma testbit_ones (w i : Z) :
  0 <= w -> Z.testbit (Z.ones w) i = (0 <=? i) && (i <? w).
Proof.
  intros Hw. destruct (Z.leb_spec 0 i) as [Hi|Hi]; simpl.
  - now apply Z.testbit_ones_nonneg.
  - now apply Z.testbit_neg_r.
Qed.

Lemma is_u64_testbit_high (n i : Z) : is_u64 n -> 64 <= i -> Z.testbit n i = false.
Proof.
  intros Hn Hi. rewrite <- (Z.mod_small n (2 ^ 64)) by exact Hn.
  apply Z.mod_pow2_bits_high. lia.
Qed.

Lemma u64_small (z : Z) : is_u64 z -> u64 z = z.
Proof. intros H. apply Z.mod_small. exact H. Qed.

Lemma u64_range (z : Z) : is_u64 (u64 z).
Proof. unfold is_u64, u64. apply Z.mod_pos_bound. lia. Qed.

Lemma u8_small (z : Z) : 0 <= z < 256 -> u8 z = z.
Proof. intros H. apply Z.mod_small. exact H. Qed.

Lemma u8_range (z : Z) : 0 <= u8 z < 256.
Proof. unfold u8. apply Z.mod_pos_bound. lia. Qed.

(** Bit [i] of the result of [setbits]: inside the field the bit of the
    value, outside it the old bit. *)
Lemma testbit_setbits (n s w v i : Z) :
  is_u64 n -> 0 <= s -> 0 <= w -> s + w <= 64 -> 0 <= i ->
  Z.testbit (setbits n s (Z.ones w) v) i =
  if (s <=? i) && (i <? s + w) then Z.testbit v (i - s) else Z.testbit n i.
Proof.
  intros Hn Hs Hw Hsw Hi. unfold setbits.
  rewrite Z.lor_spec, Z.land_spec, !testbit_u64, Z.lnot_spec by lia.
  rewrite testbit_u64, !Z.shiftl_spec, Z.land_spec, testbit_ones by lia.
  destruct (Z.leb_spec s i) as [H1|H1], (Z.ltb_spec i (s + w)) as [H2|H2]; simpl.
  - replace (i <? 64) with true by (symmetry; apply Z.ltb_lt; lia).
    replace (0 <=? i - s) with true by (symmetry; apply Z.leb_le; lia).
    replace (i - s <? w) with true by (symmetry; apply Z.ltb_lt; lia).
    simpl. now rewrite andb_false_r, andb_true_r.
  - replace (i - s <? w) with false by (symmetry; apply Z.ltb_ge; lia).
    rewrite !andb_false_r, orb_false_r. simpl.
    destruct (Z.ltb_spec i 64) as [H3|H3]; simpl.
    + now rewrite andb_true_r.
    + rewrite andb_false_r. symmetry. now apply is_u64_testbit_high.
  - replace (0 <=? i - s) with false by (symmetry; apply Z.leb_gt; lia).
    simpl. rewrite !andb_false_r, orb_false_r. simpl.
    replace (i <? 64) with true by (symmetry; apply Z.ltb_lt; lia).
    now rewrite andb_true_r.
  - lia.
Qed.

Lemma testbit_getbits (n s w i : Z) :
  0 <= s -> 0 <= w -> 0 <= i ->
  Z.testbit (getbits n s (Z.ones w)) i = (i <? w) && Z.testbit n (i + s).
Proof.
  intros Hs Hw Hi. unfold getbits.
  rewrite Z.land_spec, Z.shiftr_spec, testbit_ones by lia.
  replace (0 <=? i) with true by (symmetry; apply Z.leb_le; lia).
  simpl. apply andb_comm.
Qed.

Lemma getbits_range (n s w : Z) : 0 <= w -> 0 <= getbits n s (Z.ones w) < 2 ^ w.
Proof.
  intros Hw. unfold getbits. rewrite Z.land_ones by lia.
  apply Z.mod_pos_bound. apply Z.pow_pos_nonneg; lia.
Qed.

Lemma setbits_is_u64 (n s w v : Z) :
  is_u64 n -> 0 <= s -> 0 <= w -> s + w <= 64 -> is_u64 (setbits n s (Z.ones w) v).
Proof.
  intros Hn Hs Hw Hsw.
  assert (E : setbits n s (Z.ones w) v = u64 (setbits n s (Z.ones w) v)).
  { apply Z.bits_inj'. intros i Hi. rewrite testbit_u64.
    destruct (Z.ltb_spec i 64) as [H|H]; simpl; [reflexivity|].
    rewrite testbit_setbits by (assumption || lia).
    replace (i <? s + w) with false by (symmetry; apply Z.ltb_ge; lia).
    rewrite andb_false_r. now apply is_u64_testbit_high. }
  rewrite E. apply u64_range.
Qed.

Lemma getbits_setbits_same (n s w v : Z) :
  is_u64 n -> 0 <= s -> 0 <= w -> s + w <= 64 ->
  getbits (setbits n s (Z.ones w) v) s (Z.ones w) = Z.land v (Z.ones w).
Proof.
  intros Hn Hs Hw Hsw. apply Z.bits_inj'. intros i Hi.
  rewrite testbit_getbits, testbit_setbits, Z.land_spec, testbit_ones by (assumption || lia).
  replace (0 <=? i) with true by (symmetry; apply Z.leb_le; lia).
  replace (s <=? i + s) with true by (symmetry; apply Z.leb_le; lia).
  replace (i + s - s) with i by lia.
  destruct (Z.ltb_spec i w) as [H|H]; simpl.
  - replace (i + s <? s + w) with true by (symmetry; apply Z.ltb_lt; lia).
    now rewrite andb_true_r.
  - now rewrite andb_false_r.
Qed.

Lemma getbits_setbits_other (n s w v s' w' : Z) :
  is_u64 n -> 0 <= s -> 0 <= w -> s + w <= 64 -> 0 <= s' -> 0 <= w' ->
  s' + w' <= s \/ s + w <= s' ->
  getbits (setbits n s (Z.ones w) v) s' (Z.ones w') = getbits n s' (Z.ones w').
Proof.
  intros Hn Hs Hw Hsw Hs' Hw' Hdisj. apply Z.bits_inj'. intros i Hi.
  rewrite !testbit_getbits, testbit_setbits by (assumption || lia).
  destruct (Z.ltb_spec i w') as [H|H]; simpl; [|reflexivity].
  destruct (Z.leb_spec s (i + s')) as [H1|H1],
           (Z.ltb_spec (i + s') (s + w)) as [H2|H2]; simpl; try reflexivity.
  lia.
Qed.

(** ** The layout table *)

Lemma field_mask_ones (f : Field) : field_mask f = Z.ones (field_width f).
Proof. destruct f; reflexivity. Qed.

Lemma field_layout (f : Field) :
  0 <= field_shift f /\ 0 < field_width f /\ field_shift f + field_width f <= 64.
Proof. destruct f; cbv; repeat split; congruence. Qed.

Lemma field_disjoint (f g : Field) :
  f <> g ->
  field_shift g + field_width g <= field_shift f \/
  field_shift f + field_width f <= field_shift g.
Proof.
  intros Hfg.
  destruct f, g; try congruence; cbv; first [left; congruence | right; congruence].
Qed.

Lemma withField_is_u64 (n : Z) (f : Field) (v : Z) : is_u64 n -> is_u64 (withField n f v).
Proof.
  intros Hn. unfold withField. rewrite field_mask_ones.
  destruct (field_layout f) as (H1 & H2 & H3). apply setbits_is_u64; lia || assumption.
Qed.

Lemma getField_range (n : Z) (f : Field) : 0 <= getField n f <= field_mask f.
Proof.
  unfold getField. rewrite field_mask_ones.
  destruct (field_layout f) as (H1 & H2 & H3).
  pose proof (getbits_range n (field_shift f) (field_width f)) as H.
  rewrite Z.ones_equiv in *. lia.
Qed.

Lemma land_field_mask (v : Z) (f : Field) :
  0 <= v <= field_mask f -> Z.land v (field_mask f) = v.
Proof.
  intros Hv. rewrite field_mask_ones in *.
  destruct (field_layout f) as (H1 & H2 & H3).
  rewrite Z.land_ones by lia. rewrite Z.ones_equiv in Hv.
  apply Z.mod_small. lia.
Qed.

Lemma getField_withField_same (n : Z) (f : Field) (v : Z) :
  is_u64 n -> getField (withField n f v) f = Z.land v (field_mask f).
Proof.
  intros Hn. unfold getField, withField. rewrite field_mask_ones.
  destruct (field_layout f) as (H1 & H2 & H3).
  apply getbits_setbits_same; lia || assumption.
Qed.

Lemma getField_withField_fits (n : Z) (f : Field) (v : Z) :
  is_u64 n -> 0 <= v <= field_mask f -> getField (withField n f v) f = v.
Proof.
  intros Hn Hv. rewrite getField_withField_same by assumption.
  now apply land_field_mask.
Qed.

Lemma getField_withField_other (n : Z) (f g : Field) (v : Z) :
  is_u64 n -> f <> g -> getField (withField n f v) g = getField n g.
Proof.
  intros Hn Hfg. unfold getField, withField. rewrite !field_mask_ones.
  destruct (field_layout f) as (H1 & H2 & H3).
  destruct (field_layout g) as (H4 & H5 & H6).
  apply getbits_setbits_other; try lia; try assumption.
  now apply field_disjoint.
Qed.

Lemma testbit_withField_outside (n : Z) (f : Field) (v i : Z) :
  is_u64 n -> 0 <= i -> ~ in_field f i ->
  Z.testbit (withField n f v) i = Z.testbit n i.
Proof.
  intros Hn Hi Hout. unfold withField, in_field in *. rewrite field_mask_ones.
  destruct (field_layout f) as (H1 & H2 & H3).
  rewrite testbit_setbits by (assumption || lia).
  destruct (Z.leb_spec (field_shift f) i),
           (Z.ltb_spec i (field_shift f + field_width f)); simpl; try reflexivity.
  lia.
Qed.

(** The source's read and write idioms are the table's accessors. *)
Lemma fold_get_state n : getbits n STATE_SHIFT MASK_2BIT = getField n F_STATE.
Proof. reflexivity. Qed.
Lemma fold_get_timer n : getbits n TIMER_SHIFT MASK_2BIT = getField n F_TIMER.
Proof. reflexivity. Qed.
Lemma fold_get_fish n : getbits n FISH_SHIFT MASK_14BIT = getField n F_FISH.
Proof. reflexivity. Qed.
Lemma fold_get_position n : getbits n POSITION_SHIFT MASK_34BIT = getField n F_POSITION.
Proof. reflexivity. Qed.
Lemma fold_get_offset_x n : getbits n OFFSET_X_SHIFT MASK_4BIT = getField n F_OFFSET_X.
Proof. reflexivity. Qed.
Lemma fold_get_offset_y n : getbits n OFFSET_Y_SHIFT MASK_4BIT = getField n F_OFFSET_Y.
Proof. reflexivity. Qed.
Lemma fold_get_type n : Z.land n MASK_2BIT = getField n F_TYPE.
Proof. reflexivity. Qed.
Lemma fold_set_state n v : setbits n STATE_SHIFT MASK_2BIT v = withField n F_STATE v.
Proof. reflexivity. Qed.
Lemma fold_set_timer n v : setbits n TIMER_SHIFT MASK_2BIT v = withField n F_TIMER v.
Proof. reflexivity. Qed.
Lemma fold_set_fish n v : setbits n FISH_SHIFT MASK_14BIT v = withField n F_FISH v.
Proof. reflexivity. Qed.
Lemma fold_set_position n v : setbits n POSITION_SHIFT MASK_34BIT v = withField n F_POSITION v.
Proof. reflexivity. Qed.
Lemma fold_set_offset_x n v : setbits n OFFSET_X_SHIFT MASK_4BIT v = withField n F_OFFSET_X v.
Proof. reflexivity. Qed.
Lemma fold_set_offset_y n v : setbits n OFFSET_Y_SHIFT MASK_4BIT v = withField n F_OFFSET_Y v.
Proof. reflexivity. Qed.

Ltac fold_fields :=
  rewrite ?fold_set_state, ?fold_set_timer, ?fold_set_fish, ?fold_set_position,
    ?fold_set_offset_x, ?fold_set_offset_y, ?fold_get_state, ?fold_get_timer,
    ?fold_get_fish, ?fold_get_position, ?fold_get_offset_x, ?fold_get_offset_y,
    ?fold_get_type.

(** Side conditions of the accessor lemmas. *)
Ltac field_side :=
  first [ discriminate
        | assumption
        | repeat apply withField_is_u64; first [assumption | apply u64_range] ].

(** A written value fits its field: linear arithmetic over the constants. *)
Ltac fits_side :=
  first [ field_side
        | simpl; unfold MASK_2BIT, MASK_4BIT, MASK_14BIT, MASK_34BIT,
            POSITION_BOUND, WIDTH, HEIGHT, WIN_FISH_COUNT,
            FLOATING, FISHING, FINISHING, DEAD, GREEDY, LAZY, RESTLESS in *; lia ].

(** Push every read through the writes below it. *)
Ltac read_fields :=
  repeat first
    [ rewrite getField_withField_other by field_side
    | rewrite getField_withField_fits by fits_side
    | rewrite getField_withField_same by field_side ].

(** ** C3: the packed fields *)

(** C3. For every 64-bit record, every field of the layout and every value:
    reading a field after [setbits] wrote it gives the value cut to the
    field's mask, which is the value itself when it fits the field; every
    bit outside the field, and so every other field, is as before. *)
Theorem setbits_roundtrip_frame (record : Z) (f : Field) (value : Z) :
  is_u64 record ->
  let record' := setbits record (field_shift f) (field_mask f) value in
  getbits record' (field_shift f) (field_mask f) = Z.land value (field_mask f) /\
  (0 <= value <= field_mask f ->
   getbits record' (field_shift f) (field_mask f) = value) /\
  (forall i : Z, 0 <= i -> ~ in_field f i ->
   Z.testbit record' i = Z.testbit record i) /\
  (forall g : Field, g <> f ->
   getbits record' (field_shift g) (field_mask g) =
   getbits record (field_shift g) (field_mask g)) /\
  is_u64 record'.
Proof.
  intros Hrec record'. subst record'.
  change (setbits record (field_shift f) (field_mask f) value)
    with (withField record f value).
  repeat split.
  - now apply getField_withField_same.
  - intros Hv. now apply getField_withField_fits.
  - intros i Hi Hout. now apply testbit_withField_outside.
  - intros g Hg. apply getField_withField_other; [assumption | congruence].
  - now apply withField_is_u64.
  - now apply withField_is_u64.
Qed.

Lemma setbits_roundtrip_frame_witness :
  getbits (setbits 22 (field_shift F_FISH) (field_mask F_FISH) 9000)
    (field_shift F_FISH) (field_mask F_FISH) = 9000.
Proof.
  assert (Hrec : is_u64 22) by (unfold is_u64; lia).
  destruct (setbits_roundtrip_frame 22 F_FISH 9000 Hrec) as (_ & Hfit & _).
  apply Hfit. cbv. split; congruence.
Defined.

(** ** C10: the records made by the initialization loop *)

(** Or-ing a value into a field that holds 0 is writing the field. *)
Lemma lor_shiftl_withField (n : Z) (f : Field) (v : Z) :
  is_u64 n -> getField n f = 0 -> 0 <= v <= field_mask f ->
  Z.lor n (Z.shiftl v (field_shift f)) = withField n f v.
Proof.
  intros Hn Hzero Hv. apply Z.bits_inj'. intros i Hi.
  destruct (field_layout f) as (H1 & H2 & H3).
  unfold withField. rewrite field_mask_ones in *.
  rewrite testbit_setbits, Z.lor_spec, Z.shiftl_spec by (assumption || lia).
  assert (Hv' : forall j, field_width f <= j -> Z.testbit v j = false).
  { intros j Hj. rewrite Z.ones_equiv in Hv.
    rewrite <- (Z.mod_small v (2 ^ field_width f)) by lia.
    apply Z.mod_pow2_bits_high. lia. }
  destruct (Z.leb_spec (field_shift f) i) as [Ha|Ha],
           (Z.ltb_spec i (field_shift f + field_width f)) as [Hb|Hb]; simpl.
  - assert (Hbit : Z.testbit (getField n f) (i - field_shift f) = false)
      by (rewrite Hzero; apply Z.testbit_0_l).
    unfold getField in Hbit. rewrite field_mask_ones, testbit_getbits in Hbit by lia.
    replace (i - field_shift f + field_shift f) with i in Hbit by lia.
    replace (i - field_shift f <? field_width f) with true in Hbit
      by (symmetry; apply Z.ltb_lt; lia).
    simpl in Hbit. now rewrite Hbit.
  - rewrite Hv' by lia. apply orb_false_r.
  - rewrite Z.testbit_neg_r with (n := i - field_shift f) by lia. apply orb_false_r.
  - lia.
Qed.

Lemma getField_zero (f : Field) : getField 0 f = 0.
Proof. destruct f; reflexivity. Qed.

Lemma is_u64_zero : is_u64 0.
Proof. unfold is_u64. lia. Qed.

(** The initialization loop writes four fields of the zero record. *)
Lemma init_ship_withField (d : InitDraws) :
  valid_init_draws d ->
  init_ship d =
  withField (withField (withField (withField 0 F_TYPE (shipTypeRng d))
    F_STATE FISHING) F_TIMER (initTimerRng d)) F_POSITION (shipPositionRng d).
Proof.
  intros (Hty & Htm & Hpos). unfold POSITION_BOUND, WIDTH, HEIGHT in Hpos.
  unfold init_ship.
  rewrite (u64_small (shipTypeRng d)) by (unfold is_u64; lia).
  rewrite (u64_small (Z.shiftl FISHING STATE_SHIFT)) by (cbv; split; congruence).
  rewrite (u64_small (Z.shiftl (initTimerRng d) TIMER_SHIFT))
    by (rewrite Z.shiftl_mul_pow2 by (cbv; congruence); unfold is_u64, TIMER_SHIFT; lia).
  rewrite (u64_small (Z.shiftl (shipPositionRng d) POSITION_SHIFT))
    by (rewrite Z.shiftl_mul_pow2 by (cbv; congruence); unfold is_u64, POSITION_SHIFT; lia).
  change (Z.lor 0 (shipTypeRng d))
    with (Z.lor 0 (Z.shiftl (shipTypeRng d) (field_shift F_TYPE))).
  rewrite (lor_shiftl_withField 0 F_TYPE)
    by (first [apply is_u64_zero | apply getField_zero | simpl; unfold MASK_2BIT; lia]).
  change STATE_SHIFT with (field_shift F_STATE).
  rewrite lor_shiftl_withField; cycle 1.
  { field_side || apply withField_is_u64, is_u64_zero. }
  { rewrite getField_withField_other by (apply is_u64_zero || discriminate).
    apply getField_zero. }
  { cbv. split; congruence. }
  change TIMER_SHIFT with (field_shift F_TIMER).
  rewrite lor_shiftl_withField; cycle 1.
  { repeat apply withField_is_u64. apply is_u64_zero. }
  { rewrite !getField_withField_other
      by (discriminate || (repeat apply withField_is_u64; apply is_u64_zero)).
    apply getField_zero. }
  { simpl. unfold MASK_2BIT. lia. }
  change POSITION_SHIFT with (field_shift F_POSITION).
  rewrite lor_shiftl_withField; cycle 1.
  { repeat apply withField_is_u64. apply is_u64_zero. }
  { rewrite !getField_withField_other
      by (discriminate || (repeat apply withField_is_u64; apply is_u64_zero)).
    apply getField_zero. }
  { simpl. unfold MASK_34BIT. lia. }
  reflexivity.
Qed.

Lemma init_ship_getField (d : InitDraws) :
  valid_init_draws d ->
  is_u64 (init_ship d) /\
  getField (init_ship d) F_TYPE = shipTypeRng d /\
  getField (init_ship d) F_STATE = FISHING /\
  getField (init_ship d) F_TIMER = initTimerRng d /\
  getField (init_ship d) F_FISH = 0 /\
  getField (init_ship d) F_POSITION = shipPositionRng d /\
  getField (init_ship d) F_OFFSET_X = 0 /\
  getField (init_ship d) F_OFFSET_Y = 0.
Proof.
  intros Hd. rewrite (init_ship_withField d Hd).
  destruct Hd as (Hty & Htm & Hpos). unfold POSITION_BOUND, WIDTH, HEIGHT in Hpos.
  pose proof is_u64_zero as H0.
  split; [repeat apply withField_is_u64; assumption|].
  repeat split; read_fields; rewrite ?getField_zero; try reflexivity;
    apply land_field_mask; simpl; unfold MASK_2BIT, MASK_34BIT; lia.
Qed.

(** C10. A record made by the initialization loop is in state Fishing with
    a countdown from 1 to 3 and a position on the grid; both offset fields
    hold raw 0, so both offsets read as -8. *)
Theorem init_ship_fields (d : InitDraws) :
  valid_init_draws d ->
  let ship := init_ship d in
  getbits ship STATE_SHIFT MASK_2BIT = FISHING /\
  1 <= getbits ship TIMER_SHIFT MASK_2BIT <= 3 /\
  0 <= getbits ship POSITION_SHIFT MASK_34BIT <= POSITION_BOUND /\
  getbits ship OFFSET_X_SHIFT MASK_4BIT = 0 /\
  getbits ship OFFSET_Y_SHIFT MASK_4BIT = 0 /\
  offsetX ship = -8 /\
  offsetY ship = -8.
Proof.
  intros Hd ship. subst ship. unfold offsetX, offsetY. fold_fields.
  destruct (init_ship_getField d Hd) as (_ & _ & Hst & Htm & _ & Hpos & Hx & Hy).
  destruct Hd as (_ & Htm' & Hpos').
  rewrite Hst, Htm, Hpos, Hx, Hy. repeat split; lia.
Qed.

Lemma init_ship_fields_witness :
  offsetY (init_ship (mkInitDraws RESTLESS 1 0)) = -8.
Proof.
  apply (init_ship_fields (mkInitDraws RESTLESS 1 0)).
  cbv. repeat split; congruence.
Defined.

(** ** The loop body, by state *)

Lemma u8_field2 (n : Z) (f : Field) :
  field_mask f = MASK_2BIT -> u8 (getField n f) = getField n f.
Proof.
  intros Hm. apply u8_small. pose proof (getField_range n f) as H.
  rewrite Hm in H. unfold MASK_2BIT in H. lia.
Qed.

Lemma update_ship_floating (T : Z) (d : Draws) (w : World) (ship : Z) :
  getField ship F_STATE = FLOATING -> update_ship T d w ship = (w, floating d ship).
Proof.
  intros Hst. unfold update_ship. fold_fields.
  rewrite (u8_field2 ship F_STATE), Hst by reflexivity. reflexivity.
Qed.

Lemma update_ship_fishing (T : Z) (d : Draws) (w : World) (ship : Z) :
  getField ship F_STATE = FISHING ->
  update_ship T d w ship = fishing T d w (getField ship F_TYPE) ship.
Proof.
  intros Hst. unfold update_ship. fold_fields.
  rewrite (u8_field2 ship F_STATE), (u8_field2 ship F_TYPE), Hst by reflexivity.
  reflexivity.
Qed.

Lemma update_ship_finishing (T : Z) (d : Draws) (w : World) (ship : Z) :
  getField ship F_STATE = FINISHING -> update_ship T d w ship = finishing w ship.
Proof.
  intros Hst. unfold update_ship. fold_fields.
  rewrite (u8_field2 ship F_STATE), Hst by reflexivity. reflexivity.
Qed.

Lemma update_ship_dead (T : Z) (d : Draws) (w : World) (ship : Z) :
  getField ship F_STATE = DEAD -> update_ship T d w ship = (w, ship).
Proof.
  intros Hst. unfold update_ship. fold_fields.
  rewrite (u8_field2 ship F_STATE), Hst by reflexivity. reflexivity.
Qed.

Lemma state_cases (ship : Z) :
  getField ship F_STATE = FLOATING \/ getField ship F_STATE = FISHING \/
  getField ship F_STATE = FINISHING \/ getField ship F_STATE = DEAD.
Proof.
  pose proof (getField_range ship F_STATE) as H. simpl in H.
  unfold MASK_2BIT, FLOATING, FISHING, FINISHING, DEAD in *. lia.
Qed.

(** Ranges of the fields as linear facts. *)
Lemma field_ranges (ship : Z) :
  0 <= getField ship F_TYPE <= 3 /\ 0 <= getField ship F_STATE <= 3 /\
  0 <= getField ship F_TIMER <= 3 /\ 0 <= getField ship F_FISH <= 16383 /\
  0 <= getField ship F_POSITION <= 17179869183 /\
  0 <= getField ship F_OFFSET_X <= 15 /\ 0 <= getField ship F_OFFSET_Y <= 15.
Proof.
  repeat split;
    match goal with
    | |- context [getField ?s ?f] => pose proof (getField_range s f) as H
    end; exact (proj1 H) || exact (proj2 H).
Qed.

Lemma u64_lin (z : Z) : 0 <= z < 18446744073709551616 -> u64 z = z.
Proof. intros H. apply u64_small. exact H. Qed.

Lemma offsetX_getField (ship : Z) : offsetX ship = getField ship F_OFFSET_X - 8.
Proof. reflexivity. Qed.

Lemma offsetY_getField (ship : Z) : offsetY ship = getField ship F_OFFSET_Y - 8.
Proof. reflexivity. Qed.

(** ** C2: one step of a floating ship *)

(** What [floating] does to a ship whose offsets are not both zero. *)
Lemma floating_moves (d : Draws) (ship : Z) :
  is_u64 ship ->
  getField ship F_POSITION <= POSITION_BOUND ->
  offsetX ship <> 0 \/ offsetY ship <> 0 ->
  let p := getField ship F_POSITION in
  let ship' := floating d ship in
  is_u64 ship' /\
  getField ship' F_TYPE = getField ship F_TYPE /\
  getField ship' F_STATE = getField ship F_STATE /\
  getField ship' F_TIMER = getField ship F_TIMER /\
  getField ship' F_FISH = getField ship F_FISH /\
  (0 < offsetX ship ->
   offsetX ship' = offsetX ship - 1 /\ offsetY ship' = offsetY ship /\
   getField ship' F_POSITION = if p =? POSITION_BOUND then 0 else p + 1) /\
  (offsetX ship < 0 ->
   offsetX ship' = offsetX ship + 1 /\ offsetY ship' = offsetY ship /\
   getField ship' F_POSITION = if p =? 0 then POSITION_BOUND else p - 1) /\
  (offsetX ship = 0 -> 0 < offsetY ship ->
   offsetX ship' = 0 /\ offsetY ship' = offsetY ship - 1 /\
   getField ship' F_POSITION =
     if p <? WIDTH then p + WIDTH * (HEIGHT - 1) else p - WIDTH) /\
  (offsetX ship = 0 -> offsetY ship < 0 ->
   offsetX ship' = 0 /\ offsetY ship' = offsetY ship + 1 /\
   getField ship' F_POSITION =
     if POSITION_BOUND <? p + WIDTH then p - WIDTH * (HEIGHT - 1) else p + WIDTH).
Proof.
  intros Hu Hpos Hoff p ship'. subst p ship'.
  rewrite !offsetX_getField, !offsetY_getField in *. unfold floating. fold_fields.
  destruct (field_ranges ship) as (_ & _ & _ & _ & Hp & Hx & Hy).
  set (p := getField ship F_POSITION) in *.
  set (x := getField ship F_OFFSET_X) in *.
  set (y := getField ship F_OFFSET_Y) in *.
  unfold POSITION_BOUND, WIDTH, HEIGHT in *.
  destruct (Z.eqb_spec (x - 8) 0) as [Hx0|Hx0];
    [destruct (Z.eqb_spec (y - 8) 0) as [Hy0|Hy0]; [lia|] | ]; simpl andb; cbv iota.
  - (* X is zero: the step is vertical *)
    destruct (Z.ltb_spec 0 (x - 8)) as [?|_]; [lia|].
    destruct (Z.ltb_spec (x - 8) 0) as [?|_]; [lia|].
    destruct (Z.ltb_spec 0 (y - 8)) as [Hyp|Hyp].
    + rewrite (u64_lin (y - 8 - 1 + 8)) by lia.
      destruct (Z.ltb_spec p 1000) as [Hrow|Hrow];
        (rewrite u64_lin by lia);
        (split; [field_side|]); read_fields; fold x y p;
        (repeat split; try reflexivity; try lia; intros);
        try lia.
    + destruct (Z.ltb_spec (y - 8) 0) as [Hyn|Hyn]; [|lia].
      rewrite (u64_lin (y - 8 + 1 + 8)) by lia.
      rewrite (u64_lin (p + 1000)) by lia.
      destruct (Z.ltb_spec (1000 * 1000 - 1) (p + 1000)) as [Hrow|Hrow];
        (rewrite ?u64_lin by lia);
        (split; [field_side|]); read_fields; fold x y p;
        (repeat split; try reflexivity; try lia; intros);
        try lia.
  - (* X is not zero: the step is horizontal *)
    destruct (Z.ltb_spec 0 (x - 8)) as [Hxp|Hxp].
    + rewrite (u64_lin (x - 8 - 1 + 8)), (u64_lin (p + 1)) by lia.
      destruct (Z.ltb_spec (1000 * 1000 - 1) (p + 1)) as [Hend|Hend];
        destruct (Z.eqb_spec p (1000 * 1000 - 1)) as [Hpe|Hpe]; try lia;
        (split; [field_side|]); read_fields; fold x y p;
        (repeat split; try reflexivity; try lia; intros);
        try lia.
    + destruct (Z.ltb_spec (x - 8) 0) as [Hxn|Hxn]; [|lia].
      rewrite (u64_lin (x - 8 + 1 + 8)) by lia.
      destruct (Z.eqb_spec p 0) as [Hpe|Hpe].
      * rewrite Hpe. change (u64 (0 - 1)) with 18446744073709551615.
        change (1000 * 1000 - 1 <? 18446744073709551615) with true. cbv iota.
        (split; [field_side|]); read_fields; fold x y p;
        (repeat split; try reflexivity; try lia; intros);
        try lia.
      * rewrite (u64_lin (p - 1)) by lia.
        destruct (Z.ltb_spec (1000 * 1000 - 1) (p - 1)) as [Hend|Hend]; [lia|].
        (split; [field_side|]); read_fields; fold x y p;
        (repeat split; try reflexivity; try lia; intros);
        try lia.
Qed.

(** C2. A floating ship whose offsets are not both zero makes one step and
    stays floating: along X when the X offset is not zero, along Y only when
    it is zero, and the offset it follows moves one towards zero.  A step
    along X adds or subtracts 1 on the linear position and wraps only at the
    two ends of the grid: from [POSITION_BOUND] to 0 going right, from 0 to
    [POSITION_BOUND] going left. *)
Theorem floating_step (T : Z) (d : Draws) (w : World) (ship : Z) :
  is_u64 ship ->
  getbits ship STATE_SHIFT MASK_2BIT = FLOATING ->
  getbits ship POSITION_SHIFT MASK_34BIT <= POSITION_BOUND ->
  offsetX ship <> 0 \/ offsetY ship <> 0 ->
  let p := getbits ship POSITION_SHIFT MASK_34BIT in
  let ship' := snd (update_ship T d w ship) in
  let p' := getbits ship' POSITION_SHIFT MASK_34BIT in
  fst (update_ship T d w ship) = w /\
  getbits ship' STATE_SHIFT MASK_2BIT = FLOATING /\
  (0 < offsetX ship ->
   offsetX ship' = offsetX ship - 1 /\ offsetY ship' = offsetY ship /\
   p' = if p =? POSITION_BOUND then 0 else p + 1) /\
  (offsetX ship < 0 ->
   offsetX ship' = offsetX ship + 1 /\ offsetY ship' = offsetY ship /\
   p' = if p =? 0 then POSITION_BOUND else p - 1) /\
  (offsetX ship = 0 -> 0 < offsetY ship ->
   offsetX ship' = 0 /\ offsetY ship' = offsetY ship - 1 /\
   p' = if p <? WIDTH then p + WIDTH * (HEIGHT - 1) else p - WIDTH) /\
  (offsetX ship = 0 -> offsetY ship < 0 ->
   offsetX ship' = 0 /\ offsetY ship' = offsetY ship + 1 /\
   p' = if POSITION_BOUND <? p + WIDTH then p - WIDTH * (HEIGHT - 1) else p + WIDTH).
Proof.
  intros Hu Hst Hpos Hoff p ship' p'. subst p ship' p'.
  rewrite update_ship_floating by exact Hst. simpl fst. simpl snd.
  destruct (floating_moves d ship Hu Hpos Hoff)
    as (_ & _ & Hst' & _ & _ & Hxp & Hxn & Hyp & Hyn).
  fold_fields. rewrite Hst'.
  split; [reflexivity|]. split; [exact Hst|].
  rewrite !offsetX_getField, !offsetY_getField in *.
  exact (conj Hxp (conj Hxn (conj Hyp Hyn))).
Qed.

(** The last cell of row 0 with one step to the right left: the ship lands
    on the first cell of row 1. *)
Lemma floating_step_witness :
  getbits (snd (update_ship 1 (mkDraws 1 1 0 15 8 8) init_world
                  (withField (withField (withField 0 F_OFFSET_X 9) F_OFFSET_Y 8)
                     F_POSITION 999)))
    POSITION_SHIFT MASK_34BIT = 1000.
Proof.
  set (ship := withField (withField (withField 0 F_OFFSET_X 9) F_OFFSET_Y 8) F_POSITION 999).
  assert (Hu : is_u64 ship) by (vm_compute; split; congruence).
  assert (Hst : getbits ship STATE_SHIFT MASK_2BIT = FLOATING) by (vm_compute; reflexivity).
  assert (Hpos : getbits ship POSITION_SHIFT MASK_34BIT <= POSITION_BOUND)
    by (vm_compute; congruence).
  assert (Hoff : offsetX ship <> 0 \/ offsetY ship <> 0)
    by (left; vm_compute; congruence).
  destruct (floating_step 1 (mkDraws 1 1 0 15 8 8) init_world ship Hu Hst Hpos Hoff)
    as (_ & _ & Hxp & _).
  destruct Hxp as (_ & _ & Hp); [vm_compute; reflexivity|].
  rewrite Hp. vm_compute. reflexivity.
Defined.

(** ** C9: a finishing ship *)

Lemma finishing_spec (w : World) (ship : Z) :
  is_u64 ship ->
  getField ship F_POSITION <= POSITION_BOUND ->
  let p := getField ship F_POSITION in
  finishing w ship =
  if p mod WIDTH =? WIDTH - 1
  then ({| activeCells := activeCells w; cellsTimers := cellsTimers w;
           activeShips := activeShips w - 1 |},
        withField ship F_STATE DEAD)
  else (w, withField ship F_POSITION (p + 1)).
Proof.
  intros Hu Hpos p. unfold finishing. fold_fields. fold p.
  destruct (field_ranges ship) as (_ & _ & _ & _ & Hp & _). fold p in Hp.
  assert (Hm : 0 <= p mod WIDTH < WIDTH) by (apply Z.mod_pos_bound; reflexivity).
  unfold POSITION_BOUND, WIDTH, HEIGHT in *.
  rewrite (u64_lin (1000 - (p mod 1000 + 1))) by lia.
  rewrite (u64_lin (p + 1)) by lia.
  destruct (Z.eqb_spec (1000 - (p mod 1000 + 1)) 0),
           (Z.eqb_spec (p mod 1000) (1000 - 1)); try lia; reflexivity.
Qed.

(** C9. A finishing ship on the last column of its row becomes Dead and the
    counter of live ships goes down by exactly 1; on any other column its
    position goes up by exactly 1, in the same row, and it stays Finishing
    with the counter as it was. *)
Theorem finishing_step (T : Z) (d : Draws) (w : World) (ship : Z) :
  is_u64 ship ->
  getbits ship STATE_SHIFT MASK_2BIT = FINISHING ->
  getbits ship POSITION_SHIFT MASK_34BIT <= POSITION_BOUND ->
  let p := getbits ship POSITION_SHIFT MASK_34BIT in
  let w' := fst (update_ship T d w ship) in
  let ship' := snd (update_ship T d w ship) in
  let p' := getbits ship' POSITION_SHIFT MASK_34BIT in
  (p mod WIDTH = WIDTH - 1 ->
   getbits ship' STATE_SHIFT MASK_2BIT = DEAD /\
   activeShips w' = activeShips w - 1 /\ p' = p) /\
  (p mod WIDTH <> WIDTH - 1 ->
   p' = p + 1 /\ p' / WIDTH = p / WIDTH /\ p' <= POSITION_BOUND /\
   getbits ship' STATE_SHIFT MASK_2BIT = FINISHING /\
   activeShips w' = activeShips w).
Proof.
  intros Hu Hst Hpos p w' ship' p'. subst p w' ship' p'.
  rewrite update_ship_finishing by exact Hst.
  rewrite fold_get_position in Hpos.
  rewrite finishing_spec by assumption. fold_fields.
  destruct (field_ranges ship) as (_ & _ & _ & _ & Hp & _).
  set (p := getField ship F_POSITION) in *.
  assert (Hm : 0 <= p mod WIDTH < WIDTH) by (apply Z.mod_pos_bound; reflexivity).
  destruct (Z.eqb_spec (p mod WIDTH) (WIDTH - 1)) as [Hlast|Hlast]; cbn [fst snd].
  - split; [intros _|congruence].
    read_fields. fold p. repeat split; reflexivity.
  - split; [congruence|intros _].
    assert (Hp1 : getField (withField ship F_POSITION (p + 1)) F_POSITION = p + 1)
      by (apply getField_withField_fits; [assumption | fits_side]).
    rewrite Hp1. read_fields.
    unfold POSITION_BOUND, WIDTH, HEIGHT in *.
    pose proof (Z.div_mod p 1000 ltac:(lia)) as E.
    split; [reflexivity|]. split; [|split; [|split; [assumption|reflexivity]]].
    + symmetry. apply (Z.div_unique (p + 1) 1000 (p / 1000) (p mod 1000 + 1)); lia.
    + assert (p / 1000 < 1000) by (apply Z.div_lt_upper_bound; lia).
      lia.
Qed.

Lemma finishing_step_witness :
  getbits (snd (update_ship 1 (mkDraws 1 1 0 15 8 8) init_world
                  (withField (withField 0 F_STATE FINISHING) F_POSITION 1999)))
    STATE_SHIFT MASK_2BIT = DEAD /\
  activeShips (fst (update_ship 1 (mkDraws 1 1 0 15 8 8) init_world
                  (withField (withField 0 F_STATE FINISHING) F_POSITION 1999)))
    = SHIP_COUNT - 1.
Proof.
  set (ship := withField (withField 0 F_STATE FINISHING) F_POSITION 1999).
  assert (Hu : is_u64 ship) by (vm_compute; split; congruence).
  assert (Hst : getbits ship STATE_SHIFT MASK_2BIT = FINISHING) by (vm_compute; reflexivity).
  assert (Hpos : getbits ship POSITION_SHIFT MASK_34BIT <= POSITION_BOUND)
    by (vm_compute; congruence).
  destruct (finishing_step 1 (mkDraws 1 1 0 15 8 8) init_world ship Hu Hst Hpos)
    as (Hlast & _).
  destruct Hlast as (Hdead & Hcount & _); [vm_compute; reflexivity|].
  split; [exact Hdead | exact Hcount].
Defined.

(** ** C4: taking fish out of a cell *)

Lemma take_fish_min (req cell : Z) :
  0 <= req < 256 -> 0 <= cell < 256 ->
  take_fish req cell = (Z.min req cell, cell - Z.min req cell).
Proof.
  intros Hreq Hcell. unfold take_fish.
  destruct (Z.ltb_spec cell req) as [H|H].
  - f_equal; lia.
  - rewrite u8_small by lia. f_equal; lia.
Qed.

Lemma stored_before_range (d : Draws) (w : World) (cell : Z) :
  cells_u8 (activeCells w) -> 0 <= stored_before d w cell < 256.
Proof.
  intros Hc. unfold stored_before.
  destruct (activeCells w !! cell) as [v|] eqn:E.
  - exact (Hc cell v E).
  - apply u8_range.
Qed.

Lemma consume_facts (T : Z) (d : Draws) (w : World) (cell req : Z) :
  0 <= req < 256 -> cells_u8 (activeCells w) ->
  let prior := stored_before d w cell in
  let actual := Z.min req prior in
  exists w' : World,
    consume T d w cell req = (actual, prior - actual, w') /\
    activeCells w' = <[cell := prior - actual]> (activeCells w) /\
    activeShips w' = activeShips w /\
    cellsTimers w' =
      match activeCells w !! cell with
      | Some _ => cellsTimers w
      | None => alter (fun cells => cells ++ [cell])
                  (Z.to_nat (u64 (T + u64 (cellTimerRnd d)) mod 30)) (cellsTimers w)
      end.
Proof.
  intros Hreq Hc prior actual.
  pose proof (stored_before_range d w cell Hc) as Hprior. fold prior in Hprior.
  subst prior actual. unfold consume, stored_before in *.
  destruct (activeCells w !! cell) as [v|] eqn:E;
    rewrite take_fish_min by assumption;
    eexists; repeat split; reflexivity.
Qed.

(** C4. The catch taken out of a cell is the smaller of the requested amount
    and what the cell held before (for a cell that was not active, the amount
    drawn for it); the cell then stores what it held minus the catch, which
    is neither negative nor more than before.  Other cells are untouched. *)
Theorem consume_min (T : Z) (d : Draws) (w : World) (cell requested : Z) :
  0 <= requested < 256 ->
  cells_u8 (activeCells w) ->
  let prior := stored_before d w cell in
  let '(actual, remaining, w') := consume T d w cell requested in
  actual = Z.min requested prior /\
  activeCells w' !! cell = Some (prior - actual) /\
  remaining = prior - actual /\
  0 <= prior - actual <= prior /\
  (forall c : Z, c <> cell -> activeCells w' !! c = activeCells w !! c).
Proof.
  intros Hreq Hc prior.
  destruct (consume_facts T d w cell requested Hreq Hc) as (w' & E & Hcells & _).
  pose proof (stored_before_range d w cell Hc) as Hprior.
  fold prior in E, Hcells, Hprior. rewrite E, Hcells.
  repeat split; try lia.
  - apply lookup_insert_eq.
  - intros c Hne. apply lookup_insert_ne. congruence.
Qed.

Lemma consume_min_witness :
  let '(actual, remaining, w') :=
    consume 1 (mkDraws 1 5 3 15 8 8) init_world 0 5 in
  actual = 3 /\ activeCells w' !! 0 = Some 0.
Proof.
  assert (Hreq : 0 <= 5 < 256) by lia.
  assert (Hc : cells_u8 (activeCells init_world)).
  { intros c v Hv. simpl in Hv. rewrite lookup_empty in Hv. discriminate. }
  pose proof (consume_min 1 (mkDraws 1 5 3 15 8 8) init_world 0 5 Hreq Hc) as H.
  simpl in H.
  destruct (consume 1 (mkDraws 1 5 3 15 8 8) init_world 0 5) as [[actual remaining] w'].
  destruct H as (Ha & Hl & _). change (stored_before (mkDraws 1 5 3 15 8 8) init_world 0) with 3 in *.
  split; [exact Ha | rewrite Hl, Ha; reflexivity].
Defined.

(** ** The fishing branch *)

(** While the countdown has not reached 0 nothing else happens.  (A
    countdown of 0 would wrap to 255 and be stored as 3; no fishing ship of
    the simulation has it.) *)
Lemma fishing_waits (T : Z) (d : Draws) (w : World) (ty ship : Z) :
  getField ship F_TIMER <> 1 ->
  fishing T d w ty ship = (w, withField ship F_TIMER (u8 (getField ship F_TIMER - 1))).
Proof.
  intros Ht. unfold fishing. fold_fields.
  rewrite (u8_field2 ship F_TIMER) by reflexivity.
  destruct (field_ranges ship) as (_ & _ & Hr & _).
  assert (Hc : getField ship F_TIMER = 0 \/ getField ship F_TIMER = 2 \/
               getField ship F_TIMER = 3) by lia.
  destruct Hc as [-> | [-> | ->]]; reflexivity.
Qed.

Lemma fish_sum (a : Z) :
  0 <= a < 2 ^ 62 -> u64 (Z.min (s64 (u64 a)) WIN_FISH_COUNT) = Z.min a WIN_FISH_COUNT.
Proof.
  intros Ha. rewrite (u64_small a) by (unfold is_u64; lia).
  unfold s64. destruct (Z.ltb_spec a (2 ^ 63)) as [H|H]; [|lia].
  apply u64_small. unfold is_u64, WIN_FISH_COUNT. lia.
Qed.

(** When the countdown reaches 0 the ship takes its catch. *)
Lemma fishing_fires (T : Z) (d : Draws) (w : World) (ty ship : Z) :
  is_u64 ship ->
  getField ship F_TIMER = 1 ->
  cells_u8 (activeCells w) ->
  let prior := stored_before d w (getField ship F_POSITION) in
  let actual := Z.min (u8 (catchRng d)) prior in
  let total := Z.min (getField ship F_FISH + actual) WIN_FISH_COUNT in
  let caught := withField (withField ship F_TIMER 0) F_FISH total in
  exists w' : World,
    consume T d w (getField ship F_POSITION) (u8 (catchRng d))
      = (actual, prior - actual, w') /\
    fishing T d w ty ship =
      (w', if total =? WIN_FISH_COUNT
           then withField caught F_STATE FINISHING
           else after_catch d ty (prior - actual) caught).
Proof.
  intros Hu Ht Hc prior actual total caught.
  destruct (consume_facts T d w (getField ship F_POSITION) (u8 (catchRng d))
              (u8_range _) Hc) as (w' & E & _).
  fold prior actual in E. exists w'. split; [exact E|].
  unfold fishing. fold_fields.
  rewrite (u8_field2 ship F_TIMER), Ht by reflexivity.
  change (u8 (1 - 1)) with 0. change (0 <? 0) with false. cbv iota.
  rewrite E. read_fields.
  pose proof (stored_before_range d w (getField ship F_POSITION) Hc) as Hprior.
  pose proof (u8_range (catchRng d)) as Hreq.
  destruct (field_ranges ship) as (_ & _ & _ & Hf & _).
  fold prior in Hprior.
  rewrite fish_sum by (subst actual; lia).
  fold total. destruct (total =? WIN_FISH_COUNT); reflexivity.
Qed.

Lemma after_catch_frame (d : Draws) (ty remaining ship : Z) :
  is_u64 ship ->
  is_u64 (after_catch d ty remaining ship) /\
  getField (after_catch d ty remaining ship) F_TYPE = getField ship F_TYPE /\
  getField (after_catch d ty remaining ship) F_FISH = getField ship F_FISH /\
  getField (after_catch d ty remaining ship) F_POSITION = getField ship F_POSITION.
Proof.
  intros Hu. unfold after_catch. fold_fields.
  destruct (ty =? GREEDY); [destruct (remaining =? 0)|];
    [ | | destruct (ty =? LAZY); [|destruct (ty =? RESTLESS)]];
    (split; [field_side|]); read_fields; repeat split; reflexivity.
Qed.

(** A Restless ship after its catch: floating, one step to the right
    pending; the Y offset field is not written. *)
Lemma after_catch_restless (d : Draws) (remaining ship : Z) :
  is_u64 ship ->
  let ship' := after_catch d RESTLESS remaining ship in
  getField ship' F_STATE = FLOATING /\
  offsetX ship' = 1 /\
  offsetY ship' = offsetY ship.
Proof.
  intros Hu ship'. subst ship'. unfold after_catch. simpl. fold_fields.
  rewrite !offsetX_getField, !offsetY_getField. read_fields.
  repeat split; reflexivity.
Qed.

(** ** C8: the winning catch *)

(** C8. When the countdown of a fishing ship fires and its total reaches the
    winning count, the ship is Finishing after that update whatever its
    type: the result is the old record with the countdown at 0, the total at
    the winning count and the state Finishing, and nothing of the
    type-specific step (no fresh countdown, no offsets, no Floating). *)
Theorem win_overrides_type (T : Z) (d : Draws) (w : World) (ship : Z) :
  is_u64 ship ->
  getbits ship STATE_SHIFT MASK_2BIT = FISHING ->
  getbits ship TIMER_SHIFT MASK_2BIT = 1 ->
  cells_u8 (activeCells w) ->
  let actual :=
    Z.min (u8 (catchRng d))
      (stored_before d w (getbits ship POSITION_SHIFT MASK_34BIT)) in
  WIN_FISH_COUNT <= getbits ship FISH_SHIFT MASK_14BIT + actual ->
  let ship' := snd (update_ship T d w ship) in
  ship' =
    setbits (setbits (setbits ship TIMER_SHIFT MASK_2BIT 0)
               FISH_SHIFT MASK_14BIT WIN_FISH_COUNT)
      STATE_SHIFT MASK_2BIT FINISHING /\
  getbits ship' STATE_SHIFT MASK_2BIT = FINISHING /\
  getbits ship' FISH_SHIFT MASK_14BIT = WIN_FISH_COUNT /\
  getbits ship' TIMER_SHIFT MASK_2BIT = 0 /\
  Z.land ship' MASK_2BIT = Z.land ship MASK_2BIT /\
  offsetX ship' = offsetX ship /\
  offsetY ship' = offsetY ship /\
  getbits ship' POSITION_SHIFT MASK_34BIT = getbits ship POSITION_SHIFT MASK_34BIT.
Proof.
  intros Hu Hst Ht Hc actual Hwin ship'. subst actual ship'.
  rewrite update_ship_fishing by exact Hst.
  destruct (fishing_fires T d w (getField ship F_TYPE) ship Hu Ht Hc) as (w' & _ & E).
  rewrite E. cbn [snd]. clear E. revert Hwin. fold_fields. intros Hwin.
  rewrite (Z.min_r _ WIN_FISH_COUNT) by exact Hwin.
  rewrite Z.eqb_refl.
  rewrite !offsetX_getField, !offsetY_getField. read_fields.
  repeat split; reflexivity.
Qed.

Lemma win_overrides_type_witness :
  getbits (snd (update_ship 1 (mkDraws 1 5 7 15 8 8) init_world
                  (withField (withField (withField (withField 0 F_TYPE LAZY)
                     F_STATE FISHING) F_TIMER 1) F_FISH 9995)))
    STATE_SHIFT MASK_2BIT = FINISHING.
Proof.
  set (ship := withField (withField (withField (withField 0 F_TYPE LAZY)
                 F_STATE FISHING) F_TIMER 1) F_FISH 9995).
  assert (Hu : is_u64 ship) by (vm_compute; split; congruence).
  assert (Hst : getbits ship STATE_SHIFT MASK_2BIT = FISHING) by (vm_compute; reflexivity).
  assert (Ht : getbits ship TIMER_SHIFT MASK_2BIT = 1) by (vm_compute; reflexivity).
  assert (Hc : cells_u8 (activeCells init_world)).
  { intros c v Hv. simpl in Hv. rewrite lookup_empty in Hv. discriminate. }
  assert (Hwin : WIN_FISH_COUNT <= getbits ship FISH_SHIFT MASK_14BIT +
            Z.min (u8 (catchRng (mkDraws 1 5 7 15 8 8)))
              (stored_before (mkDraws 1 5 7 15 8 8) init_world
                 (getbits ship POSITION_SHIFT MASK_34BIT)))
    by (vm_compute; congruence).
  destruct (win_overrides_type 1 (mkDraws 1 5 7 15 8 8) init_world ship
              Hu Hst Ht Hc Hwin) as (_ & Hfin & _).
  exact Hfin.
Defined.

(** ** C1: a Restless ship after its catch *)

(** A Restless ship whose countdown fires below the winning count floats
    with X offset +1 and the Y offset it had. *)
Lemma restless_catch (T : Z) (d : Draws) (w : World) (ship : Z) :
  is_u64 ship ->
  getField ship F_TYPE = RESTLESS ->
  getField ship F_STATE = FISHING ->
  getField ship F_TIMER = 1 ->
  cells_u8 (activeCells w) ->
  getField ship F_FISH + 255 < WIN_FISH_COUNT ->
  let ship' := snd (update_ship T d w ship) in
  getField ship' F_STATE = FLOATING /\
  offsetX ship' = 1 /\
  offsetY ship' = offsetY ship.
Proof.
  intros Hu Hty Hst Ht Hc Hfish ship'. subst ship'.
  rewrite update_ship_fishing by exact Hst.
  destruct (fishing_fires T d w (getField ship F_TYPE) ship Hu Ht Hc) as (w' & _ & E).
  rewrite E. simpl snd. clear E.
  pose proof (stored_before_range d w (getField ship F_POSITION) Hc) as Hprior.
  pose proof (u8_range (catchRng d)) as Hreq.
  destruct (field_ranges ship) as (_ & _ & _ & Hf & _).
  destruct (Z.eqb_spec
    (Z.min (getField ship F_FISH +
       Z.min (u8 (catchRng d)) (stored_before d w (getField ship F_POSITION)))
       WIN_FISH_COUNT) WIN_FISH_COUNT) as [Heq|Hne]; [lia|].
  rewrite Hty.
  match goal with
  | |- context [after_catch d RESTLESS ?l ?s] =>
      destruct (after_catch_restless d l s) as (H1 & H2 & H3); [field_side|]
  end.
  rewrite H1, H2, H3. rewrite !offsetY_getField. read_fields.
  repeat split; reflexivity.
Qed.

(** C1, as the code has it.  A Restless ship fresh from the initialization
    loop, whose countdown fires on its first update, floats with X offset +1
    but with Y offset -8, not 0: the Restless step writes the X offset only,
    and the initialization left the Y offset field at raw 0. *)
Theorem restless_first_cycle (T : Z) (di : InitDraws) (d : Draws) (w : World) :
  valid_init_draws di ->
  shipTypeRng di = RESTLESS ->
  initTimerRng di = 1 ->
  cells_u8 (activeCells w) ->
  let ship' := snd (update_ship T d w (init_ship di)) in
  getbits ship' STATE_SHIFT MASK_2BIT = FLOATING /\
  offsetX ship' = 1 /\
  offsetY ship' = -8.
Proof.
  intros Hdi Hty Ht Hc.
  destruct (init_ship_getField di Hdi) as (Hu & Hty' & Hst & Ht' & Hf & _ & _ & Hy).
  assert (Hlow : getField (init_ship di) F_FISH + 255 < WIN_FISH_COUNT)
    by (rewrite Hf; unfold WIN_FISH_COUNT; lia).
  rewrite Hty in Hty'. rewrite Ht in Ht'.
  destruct (restless_catch T d w (init_ship di) Hu Hty' Hst Ht' Hc Hlow)
    as (H1 & H2 & H3).
  intros ship'. subst ship'. fold_fields.
  rewrite H1, H2, H3, offsetY_getField, Hy. repeat split; reflexivity.
Qed.

Lemma restless_first_cycle_witness :
  offsetY (snd (update_ship 1 (mkDraws 1 5 7 15 8 8) init_world
                  (init_ship (mkInitDraws RESTLESS 1 0)))) = -8.
Proof.
  assert (Hdi : valid_init_draws (mkInitDraws RESTLESS 1 0))
    by (cbv; repeat split; congruence).
  assert (Hc : cells_u8 (activeCells init_world)).
  { intros c v Hv. simpl in Hv. rewrite lookup_empty in Hv. discriminate. }
  destruct (restless_first_cycle 1 (mkInitDraws RESTLESS 1 0) (mkDraws 1 5 7 15 8 8)
              init_world Hdi eq_refl eq_refl Hc) as (_ & _ & Hy).
  exact Hy.
Defined.

(** ** Invariant of the ship records *)

Lemma floating_arrives (d : Draws) (ship : Z) :
  offsetX ship = 0 -> offsetY ship = 0 ->
  floating d ship =
  withField (withField ship F_STATE FISHING) F_TIMER (u64 (shipTimerRng d)).
Proof.
  intros Hx Hy. unfold floating. fold_fields.
  rewrite offsetX_getField in Hx. rewrite offsetY_getField in Hy.
  rewrite Hx, Hy. reflexivity.
Qed.

Lemma floating_inv (d : Draws) (ship : Z) :
  ship_inv ship ->
  ship_inv (floating d ship) /\
  getField (floating d ship) F_FISH = getField ship F_FISH.
Proof.
  intros (Hu & Hpos & Hfish).
  destruct (Z.eq_dec (offsetX ship) 0) as [Hx|Hx];
    [destruct (Z.eq_dec (offsetY ship) 0) as [Hy|Hy]|].
  - rewrite floating_arrives by assumption.
    unfold ship_inv. read_fields. repeat split; try assumption; field_side.
  - destruct (floating_moves d ship Hu Hpos (or_intror Hy))
      as (Hu' & _ & _ & _ & Hf & _ & _ & Hyp & Hyn).
    destruct (field_ranges ship) as (_ & _ & _ & _ & Hp & _).
    unfold ship_inv. rewrite Hf. repeat split; try assumption; try apply Hu'.
    unfold POSITION_BOUND, WIDTH, HEIGHT in *.
    destruct (Z.lt_total 0 (offsetY ship)) as [Hs|[Hs|Hs]]; [|lia|].
    + destruct (Hyp Hx Hs) as (_ & _ & ->).
      destruct (Z.ltb_spec (getField ship F_POSITION) 1000); lia.
    + destruct (Hyn Hx Hs) as (_ & _ & ->).
      destruct (Z.ltb_spec (1000 * 1000 - 1) (getField ship F_POSITION + 1000)); lia.
  - destruct (floating_moves d ship Hu Hpos (or_introl Hx))
      as (Hu' & _ & _ & _ & Hf & Hxp & Hxn & _).
    destruct (field_ranges ship) as (_ & _ & _ & _ & Hp & _).
    unfold ship_inv. rewrite Hf. repeat split; try assumption; try apply Hu'.
    unfold POSITION_BOUND, WIDTH, HEIGHT in *.
    destruct (Z.lt_total 0 (offsetX ship)) as [Hs|[Hs|Hs]]; [|lia|].
    + destruct (Hxp Hs) as (_ & _ & ->).
      destruct (Z.eqb_spec (getField ship F_POSITION) (1000 * 1000 - 1)); lia.
    + destruct (Hxn Hs) as (_ & _ & ->).
      destruct (Z.eqb_spec (getField ship F_POSITION) 0); lia.
Qed.

Lemma finishing_inv (w : World) (ship : Z) :
  ship_inv ship ->
  ship_inv (snd (finishing w ship)) /\
  getField (snd (finishing w ship)) F_FISH = getField ship F_FISH /\
  activeCells (fst (finishing w ship)) = activeCells w /\
  cellsTimers (fst (finishing w ship)) = cellsTimers w.
Proof.
  intros (Hu & Hpos & Hfish). rewrite finishing_spec by assumption.
  destruct (field_ranges ship) as (_ & _ & _ & _ & Hp & _).
  set (p := getField ship F_POSITION) in *.
  assert (Hm : 0 <= p mod WIDTH < WIDTH) by (apply Z.mod_pos_bound; reflexivity).
  destruct (Z.eqb_spec (p mod WIDTH) (WIDTH - 1)) as [Hlast|Hlast]; cbn [fst snd].
  - unfold ship_inv. read_fields. repeat split; try assumption; field_side.
  - assert (Hp1 : getField (withField ship F_POSITION (p + 1)) F_POSITION = p + 1)
      by (apply getField_withField_fits; [assumption | fits_side]).
    unfold ship_inv. rewrite Hp1. read_fields.
    repeat split; try assumption; try field_side.
    unfold POSITION_BOUND, WIDTH, HEIGHT in *.
    pose proof (Z.div_mod p 1000 ltac:(lia)) as E.
    assert (p / 1000 < 1000) by (apply Z.div_lt_upper_bound; lia).
    lia.
Qed.

Lemma fishing_inv (T : Z) (d : Draws) (w : World) (ty ship : Z) :
  ship_inv ship -> cells_u8 (activeCells w) ->
  ship_inv (snd (fishing T d w ty ship)) /\
  getField ship F_FISH <= getField (snd (fishing T d w ty ship)) F_FISH.
Proof.
  intros (Hu & Hpos & Hfish) Hc.
  destruct (Z.eq_dec (getField ship F_TIMER) 1) as [Ht|Ht].
  - destruct (fishing_fires T d w ty ship Hu Ht Hc) as (w' & _ & E).
    rewrite E. cbn [snd]. clear E.
    pose proof (stored_before_range d w (getField ship F_POSITION) Hc) as Hprior.
    pose proof (u8_range (catchRng d)) as Hreq.
    destruct (field_ranges ship) as (_ & _ & _ & Hf & _).
    set (total := Z.min (getField ship F_FISH +
           Z.min (u8 (catchRng d)) (stored_before d w (getField ship F_POSITION)))
           WIN_FISH_COUNT).
    assert (Htot : getField ship F_FISH <= total <= WIN_FISH_COUNT) by (subst total; lia).
    set (caught := withField (withField ship F_TIMER 0) F_FISH total).
    assert (Hcu : is_u64 caught) by (subst caught; field_side).
    assert (Hcf : getField caught F_FISH = total)
      by (subst caught; apply getField_withField_fits; [field_side | fits_side]).
    assert (Hcp : getField caught F_POSITION = getField ship F_POSITION)
      by (subst caught; read_fields; reflexivity).
    destruct (total =? WIN_FISH_COUNT).
    + unfold ship_inv. read_fields. rewrite Hcf, Hcp.
      repeat split; try assumption; try lia; field_side.
    + destruct (after_catch_frame d ty
                  (stored_before d w (getField ship F_POSITION) -
                   Z.min (u8 (catchRng d)) (stored_before d w (getField ship F_POSITION)))
                  caught Hcu) as (Hau & _ & Haf & Hap).
      unfold ship_inv. rewrite Haf, Hap, Hcf, Hcp.
      repeat split; try assumption; try lia; apply Hau.
  - rewrite fishing_waits by assumption. cbn [snd].
    unfold ship_inv. read_fields. repeat split; try assumption; try lia; field_side.
Qed.

Lemma update_ship_ship_inv (T : Z) (d : Draws) (w : World) (ship : Z) :
  ship_inv ship -> cells_u8 (activeCells w) ->
  ship_inv (snd (update_ship T d w ship)) /\
  getField ship F_FISH <= getField (snd (update_ship T d w ship)) F_FISH.
Proof.
  intros Hs Hc.
  destruct (state_cases ship) as [Hst|[Hst|[Hst|Hst]]].
  - rewrite update_ship_floating by assumption. cbn [snd].
    destruct (floating_inv d ship Hs) as (H1 & H2). split; [assumption|lia].
  - rewrite update_ship_fishing by assumption. now apply fishing_inv.
  - rewrite update_ship_finishing by assumption.
    destruct (finishing_inv w ship Hs) as (H1 & H2 & _). split; [assumption|lia].
  - rewrite update_ship_dead by assumption. cbn [snd]. split; [assumption|lia].
Qed.

(** ** The ring buffer and the map *)

Lemma concat_alter_snoc (l : list (list Z)) (i : nat) (c : Z) :
  (i < length l)%nat ->
  concat (alter (fun cells => cells ++ [c]) i l) ≡ₚ c :: concat l.
Proof.
  revert i. induction l as [|s l IH]; intros i Hi; simpl in Hi; [lia|].
  destruct i as [|i].
  - change (concat ((s ++ [c]) :: l) ≡ₚ c :: concat (s :: l)).
    rewrite !concat_cons, <- app_assoc. symmetry. apply Permutation_middle.
  - change (concat (s :: alter (fun cells => cells ++ [c]) i l) ≡ₚ c :: concat (s :: l)).
    rewrite !concat_cons, IH by lia. symmetry. apply Permutation_middle.
Qed.

Lemma concat_insert_nil (l : list (list Z)) (i : nat) (s : list Z) :
  l !! i = Some s -> concat l ≡ₚ s ++ concat (<[i := []]> l).
Proof.
  revert i. induction l as [|s' l IH]; intros i Hi; [discriminate|].
  destruct i as [|i]; simpl in *.
  - injection Hi as ->. reflexivity.
  - rewrite (IH i Hi) at 1. rewrite !app_assoc.
    apply Permutation_app_tail, Permutation_app_comm.
Qed.


Lemma foldl_delete_lookup (s : list Z) (cells : gmap Z Z) (c : Z) :
  foldl (fun cells cellIdx => delete cellIdx cells) cells s !! c =
  if decide (c ∈ s) then None else cells !! c.
Proof.
  revert cells. induction s as [|x s IH]; intros cells; simpl.
  - destruct (decide (c ∈ [])) as [H|H]; [inversion H|reflexivity].
  - rewrite IH. destruct (decide (c ∈ s)) as [H|H].
    + rewrite decide_True by (now right). reflexivity.
    + destruct (decide (c = x)) as [->|Hne].
      * rewrite decide_True by left. apply lookup_delete_eq.
      * rewrite decide_False by (intros Hin; inversion Hin; subst; tauto).
        apply lookup_delete_ne. congruence.
Qed.

(** A slot index computed modulo 30 is a slot of the ring buffer. *)
Lemma slot_index_lt (z : Z) (l : list (list Z)) :
  length l = 30%nat -> (Z.to_nat (z mod 30) < length l)%nat.
Proof.
  intros Hl. rewrite Hl. pose proof (Z.mod_pos_bound z 30 ltac:(lia)). lia.
Qed.

Lemma init_world_inv : world_inv init_world.
Proof.
  unfold world_inv, init_world; simpl.
  split; [reflexivity|]. split; [constructor|]. split.
  - intros c. split.
    + intros H. inversion H.
    + intros [v Hv]. rewrite lookup_empty in Hv. discriminate.
  - intros c v Hv. rewrite lookup_empty in Hv. discriminate.
Qed.

Lemma expire_inv (T : Z) (w : World) : world_inv w -> world_inv (expire T w).
Proof.
  intros (Hlen & Hnd & Hdom & Hu8). unfold world_inv, expire. simpl.
  pose proof (slot_index_lt T (cellsTimers w) Hlen) as Hidx.
  destruct (lookup_lt_is_Some_2 _ _ Hidx) as [s Hs]. rewrite Hs. simpl.
  pose proof (concat_insert_nil _ _ _ Hs) as Hperm.
  rewrite Hperm in Hnd. apply NoDup_app in Hnd as (Hnd1 & Hdisj & Hnd2).
  split; [now rewrite length_insert|]. split; [assumption|]. split.
  - intros c. rewrite foldl_delete_lookup.
    destruct (decide (c ∈ s)) as [Hin|Hin].
    + split; [intros Hc; exfalso; exact (Hdisj c Hin Hc)|intros [v Hv]; discriminate].
    + rewrite <- Hdom, Hperm, elem_of_app. tauto.
  - intros c v. rewrite foldl_delete_lookup.
    destruct (decide (c ∈ s)); [discriminate|apply Hu8].
Qed.

Lemma consume_inv (T : Z) (d : Draws) (w : World) (cell req : Z) :
  0 <= req < 256 -> world_inv w ->
  world_inv (snd (consume T d w cell req)).
Proof.
  intros Hreq (Hlen & Hnd & Hdom & Hu8).
  destruct (consume_facts T d w cell req Hreq Hu8) as (w' & E & Hcells & _ & Htimers).
  rewrite E. cbn [snd]. unfold world_inv. rewrite Hcells, Htimers.
  pose proof (stored_before_range d w cell Hu8) as Hprior.
  assert (Hbyte : cells_u8 (<[cell := stored_before d w cell -
                    Z.min req (stored_before d w cell)]> (activeCells w))).
  { intros c v. rewrite lookup_insert. destruct (decide (cell = c)).
    - intros [= <-]. lia.
    - apply Hu8. }
  destruct (activeCells w !! cell) as [v|] eqn:Hcell.
  - split; [assumption|]. split; [assumption|]. split; [|assumption].
    intros c. rewrite lookup_insert. destruct (decide (cell = c)) as [<-|Hne].
    + split; [eauto | intros _; apply Hdom; eauto].
    + apply Hdom.
  - pose proof (slot_index_lt (u64 (T + u64 (cellTimerRnd d))) (cellsTimers w) Hlen) as Hidx.
    pose proof (concat_alter_snoc (cellsTimers w) _ cell Hidx) as Hperm.
    assert (Hfresh : cell ∉ concat (cellsTimers w)).
    { intros Hin. apply Hdom in Hin as [v Hv]. congruence. }
    split; [now rewrite length_alter|]. split; [|split; [|assumption]].
    + rewrite Hperm. now constructor.
    + intros c. rewrite Hperm, lookup_insert, elem_of_cons.
      destruct (decide (cell = c)) as [<-|Hne].
      * split; [eauto|now left].
      * rewrite Hdom. split; [intros [?|?]; [congruence|assumption]|now right].
Qed.

Lemma fishing_world (T : Z) (d : Draws) (w : World) (ty ship : Z) :
  is_u64 ship -> cells_u8 (activeCells w) ->
  fst (fishing T d w ty ship) =
  if getField ship F_TIMER =? 1
  then snd (consume T d w (getField ship F_POSITION) (u8 (catchRng d)))
  else w.
Proof.
  intros Hu Hc. destruct (Z.eqb_spec (getField ship F_TIMER) 1) as [Ht|Ht].
  - destruct (fishing_fires T d w ty ship Hu Ht Hc) as (w' & E1 & E2).
    now rewrite E1, E2.
  - now rewrite fishing_waits.
Qed.

Lemma update_ship_world_inv (T : Z) (d : Draws) (w : World) (ship : Z) :
  is_u64 ship -> world_inv w -> world_inv (fst (update_ship T d w ship)).
Proof.
  intros Hu Hw.
  destruct (state_cases ship) as [Hst|[Hst|[Hst|Hst]]].
  - now rewrite update_ship_floating.
  - rewrite update_ship_fishing by assumption.
    rewrite fishing_world by (assumption || apply Hw).
    destruct (getField ship F_TIMER =? 1); [|assumption].
    apply consume_inv; [apply u8_range | assumption].
  - rewrite update_ship_finishing by assumption.
    unfold finishing. destruct (_ =? 0); [|assumption].
    exact Hw.
  - now rewrite update_ship_dead.
Qed.

(** The loop over the ships keeps both invariants, and no catch total goes
    down. *)
Lemma process_ships_inv (T : Z) (rnd : nat -> Draws) (l : list Z) :
  forall (i : nat) (w : World),
  world_inv w -> Forall ship_inv l ->
  world_inv (fst (process_ships T rnd i l w)) /\
  Forall ship_inv (snd (process_ships T rnd i l w)) /\
  Forall2 (fun ship ship' => getField ship F_FISH <= getField ship' F_FISH)
    l (snd (process_ships T rnd i l w)).
Proof.
  induction l as [|ship l IH]; intros i w Hw Hl; simpl.
  - split; [assumption | split; constructor].
  - inversion Hl as [|? ? Hs Hl']; subst.
    pose proof (update_ship_world_inv T (rnd i) w ship (proj1 Hs) Hw) as Hw1.
    destruct (update_ship_ship_inv T (rnd i) w ship Hs (proj2 (proj2 (proj2 Hw))))
      as (Hs1 & Hmono).
    destruct (update_ship T (rnd i) w ship) as [w1 ship1]. cbn [fst snd] in *.
    destruct (IH (S i) w1 Hw1 Hl') as (Hw2 & Hl2 & Hm2).
    destruct (process_ships T rnd (S i) l w1) as [w2 l2]. cbn [fst snd] in *.
    split; [assumption | split; now constructor].
Qed.

Lemma init_sim_ships_inv (rnd : nat -> InitDraws) :
  (forall i, valid_init_draws (rnd i)) -> Forall ship_inv (ships (init_sim rnd)).
Proof.
  intros Hrnd. unfold init_sim. cbn [ships].
  apply Forall_forall. intros ship Hin.
  apply list_elem_of_In, in_map_iff in Hin as (i & <- & _).
  destruct (init_ship_getField (rnd i) (Hrnd i)) as (Hu & _ & _ & _ & Hf & Hp & _).
  destruct (Hrnd i) as (_ & _ & Hpos).
  unfold ship_inv. rewrite Hf, Hp. unfold WIN_FISH_COUNT. repeat split; try apply Hu; lia.
Qed.

Lemma sim_tick_inv (rnd : nat -> Draws) (st : Sim) :
  world_inv (world st) -> Forall ship_inv (ships st) ->
  world_inv (world (sim_tick rnd st)) /\
  Forall ship_inv (ships (sim_tick rnd st)) /\
  Forall2 (fun ship ship' => getField ship F_FISH <= getField ship' F_FISH)
    (ships st) (ships (sim_tick rnd st)).
Proof.
  intros Hw Hl. unfold sim_tick.
  pose proof (process_ships_inv (tick st) rnd (ships st) 0
                (expire (tick st) (world st)) (expire_inv _ _ Hw) Hl) as H.
  destruct (process_ships (tick st) rnd 0 (ships st) (expire (tick st) (world st)))
    as [w' l']. exact H.
Qed.

Lemma reachable_inv (st : Sim) :
  reachable st -> world_inv (world st) /\ Forall ship_inv (ships st).
Proof.
  induction 1 as [rnd Hrnd | rnd st Hreach [IHw IHl] Hlive Hrnd].
  - split; [apply init_world_inv | now apply init_sim_ships_inv].
  - destruct (sim_tick_inv rnd st IHw IHl) as (H1 & H2 & _). now split.
Qed.

(** ** C7: the catch total of a ship *)

(** C7. In every reachable state every ship's catch total is at most the
    winning count, and a tick leaves every ship, position by position in the
    array, with a total that is not smaller than before and again at most
    the winning count. *)
Theorem fish_monotone_bounded (st : Sim) (rnd : nat -> Draws) :
  reachable st ->
  Forall (fun ship => getbits ship FISH_SHIFT MASK_14BIT <= WIN_FISH_COUNT) (ships st) /\
  Forall2 (fun ship ship' =>
             getbits ship FISH_SHIFT MASK_14BIT <= getbits ship' FISH_SHIFT MASK_14BIT /\
             getbits ship' FISH_SHIFT MASK_14BIT <= WIN_FISH_COUNT)
    (ships st) (ships (sim_tick rnd st)).
Proof.
  intros Hreach. destruct (reachable_inv st Hreach) as (Hw & Hl).
  destruct (sim_tick_inv rnd st Hw Hl) as (_ & Hl' & Hmono).
  split.
  - eapply Forall_impl; [exact Hl|]. intros ship Hs. apply Hs.
  - revert Hl' Hmono. generalize (ships (sim_tick rnd st)) as l'.
    generalize (ships st) as l. clear.
    intros l l' Hl' Hmono. induction Hmono as [|ship ship' l l' Hle Hrest IH].
    + constructor.
    + inversion Hl' as [|? ? Hs Hl'']; subst. constructor.
      * split; [exact Hle | apply Hs].
      * apply IH, Hl''.
Qed.

Lemma fish_monotone_bounded_witness :
  Forall (fun ship => getbits ship FISH_SHIFT MASK_14BIT <= WIN_FISH_COUNT)
    (ships (init_sim (fun _ => mkInitDraws LAZY 1 0))).
Proof.
  apply (fish_monotone_bounded (init_sim (fun _ => mkInitDraws LAZY 1 0))
           (fun _ => mkDraws 1 5 7 15 8 8)).
  apply reach_init. intros i. cbv. repeat split; congruence.
Defined.

(** ** C6: a cell has at most one entry in the ring buffer *)

Lemma process_ships_app (T : Z) (rnd : nat -> Draws) (l1 l2 : list Z) :
  forall (i : nat) (w : World),
  process_ships T rnd i (l1 ++ l2) w =
  let '(w1, l1') := process_ships T rnd i l1 w in
  let '(w2, l2') := process_ships T rnd (i + length l1) l2 w1 in
  (w2, l1' ++ l2').
Proof.
  induction l1 as [|ship l1 IH]; intros i w; simpl.
  - rewrite Nat.add_0_r. now destruct (process_ships T rnd i l2 w).
  - destruct (update_ship T (rnd i) w ship) as [w0 ship0].
    rewrite IH. destruct (process_ships T rnd (S i) l1 w0) as [w1 l1'].
    replace (i + S (length l1))%nat with (S i + length l1)%nat by lia.
    now destruct (process_ships T rnd (S i + length l1) l2 w1).
Qed.

Lemma mid_tick_inv (rnd : nat -> Draws) (n : nat) (st : Sim) :
  world_inv (world st) -> Forall ship_inv (ships st) ->
  world_inv (mid_tick rnd n st).
Proof.
  intros Hw Hl. unfold mid_tick.
  apply process_ships_inv; [now apply expire_inv | now apply Forall_take].
Qed.

(** Updating a ship that sits on an active cell leaves the ring buffer as it
    is. *)
Lemma update_ship_active_cell (T : Z) (d : Draws) (w : World) (ship : Z) :
  is_u64 ship -> cells_u8 (activeCells w) ->
  is_Some (activeCells w !! getField ship F_POSITION) ->
  cellsTimers (fst (update_ship T d w ship)) = cellsTimers w.
Proof.
  intros Hu Hc [v Hv].
  destruct (state_cases ship) as [Hst|[Hst|[Hst|Hst]]].
  - now rewrite update_ship_floating.
  - rewrite update_ship_fishing by assumption.
    rewrite fishing_world by assumption.
    destruct (getField ship F_TIMER =? 1); [|reflexivity].
    destruct (consume_facts T d w (getField ship F_POSITION) (u8 (catchRng d))
                (u8_range _) Hc) as (w' & E & _ & _ & Ht).
    rewrite E. cbn [snd]. now rewrite Ht, Hv.
  - rewrite update_ship_finishing by assumption.
    unfold finishing. now destruct (_ =? 0).
  - now rewrite update_ship_dead.
Qed.

(** C6. In every reachable state, and at every point of the tick that
    follows it (the due slot drained, any number of ships updated), no cell
    occurs twice in the 30 slots of the ring buffer, the cells in the ring
    buffer are exactly the active cells, and updating a ship that sits on an
    active cell adds no entry. *)
Theorem ring_entries_unique (st : Sim) (rnd : nat -> Draws) (n : nat) :
  reachable st ->
  let w := mid_tick rnd n st in
  NoDup (concat (cellsTimers (world st))) /\
  length (cellsTimers w) = 30%nat /\
  NoDup (concat (cellsTimers w)) /\
  (forall c : Z, c ∈ concat (cellsTimers w) <-> is_Some (activeCells w !! c)) /\
  (forall (d : Draws) (ship : Z),
     is_u64 ship ->
     is_Some (activeCells w !! getbits ship POSITION_SHIFT MASK_34BIT) ->
     cellsTimers (fst (update_ship (tick st) d w ship)) = cellsTimers w).
Proof.
  intros Hreach w. destruct (reachable_inv st Hreach) as (Hw & Hl).
  pose proof (mid_tick_inv rnd n st Hw Hl) as (H1 & H2 & H3 & H4). fold w in H1, H2, H3, H4.
  split; [apply Hw|]. split; [exact H1|]. split; [exact H2|]. split; [exact H3|].
  intros d ship Hu Hact. now apply update_ship_active_cell.
Qed.

Lemma ring_entries_unique_witness :
  NoDup (concat (cellsTimers
    (mid_tick (fun _ => mkDraws 1 5 7 15 8 8) 3
       (init_sim (fun _ => mkInitDraws LAZY 1 0))))).
Proof.
  apply (ring_entries_unique (init_sim (fun _ => mkInitDraws LAZY 1 0))
           (fun _ => mkDraws 1 5 7 15 8 8) 3).
  apply reach_init. intros i. cbv. repeat split; congruence.
Defined.

(** ** C5: when a scheduled cell expires *)










Lemma sim_tick_world (rnd : nat -> Draws) (st : Sim) :
  world (sim_tick rnd st) =
  fst (process_ships (tick st) rnd 0 (ships st) (expire (tick st) (world st))).
Proof.
  unfold sim_tick.
  now destruct (process_ships (tick st) rnd 0 (ships st) (expire (tick st) (world st))).
Qed.









(** ** The counter of live ships

    [activeShips] is the number of ships that are not Dead, so the [int]
    of the source stays between 0 and [SHIP_COUNT]. *)

Lemma after_catch_state (d : Draws) (ty remaining ship : Z) :
  is_u64 ship ->
  getField (after_catch d ty remaining ship) F_STATE = FLOATING \/
  getField (after_catch d ty remaining ship) F_STATE = getField ship F_STATE.
Proof.
  intros Hu. unfold after_catch. fold_fields.
  destruct (ty =? GREEDY); [destruct (remaining =? 0)|];
    [ | | destruct (ty =? LAZY); [|destruct (ty =? RESTLESS)]];
    read_fields; auto.
Qed.

Lemma live_not_dead (ship : Z) : getField ship F_STATE <> DEAD -> live ship = 1.
Proof. intros H. unfold live. now destruct (Z.eqb_spec (getField ship F_STATE) DEAD). Qed.

Lemma update_ship_live (T : Z) (d : Draws) (w : World) (ship : Z) :
  ship_inv ship -> cells_u8 (activeCells w) ->
  activeShips (fst (update_ship T d w ship)) - live (snd (update_ship T d w ship)) =
  activeShips w - live ship.
Proof.
  intros (Hu & Hpos & Hfish) Hc.
  destruct (state_cases ship) as [Hst|[Hst|[Hst|Hst]]].
  - rewrite update_ship_floating by assumption. cbn [fst snd].
    rewrite (live_not_dead ship) by (rewrite Hst; discriminate).
    rewrite live_not_dead; [reflexivity|].
    destruct (Z.eq_dec (offsetX ship) 0) as [Hx|Hx];
      [destruct (Z.eq_dec (offsetY ship) 0) as [Hy|Hy]|].
    + rewrite floating_arrives by assumption. read_fields. discriminate.
    + destruct (floating_moves d ship Hu Hpos (or_intror Hy)) as (_ & _ & -> & _).
      rewrite Hst. discriminate.
    + destruct (floating_moves d ship Hu Hpos (or_introl Hx)) as (_ & _ & -> & _).
      rewrite Hst. discriminate.
  - rewrite update_ship_fishing by assumption.
    rewrite (live_not_dead ship) by (rewrite Hst; discriminate).
    destruct (Z.eq_dec (getField ship F_TIMER) 1) as [Ht|Ht].
    + destruct (fishing_fires T d w (getField ship F_TYPE) ship Hu Ht Hc) as (w' & E1 & E2).
      destruct (consume_facts T d w (getField ship F_POSITION) (u8 (catchRng d))
                  (u8_range _) Hc) as (w'' & E3 & _ & Hlive & _).
      rewrite E3 in E1. injection E1 as <-. rewrite E2. cbn [fst snd]. rewrite Hlive.
      rewrite live_not_dead; [reflexivity|].
      destruct (_ =? WIN_FISH_COUNT).
      * read_fields. discriminate.
      * match goal with
        | |- context [after_catch d ?ty ?r ?s] =>
            destruct (after_catch_state d ty r s) as [E|E]; [field_side|..]
        end; rewrite E; [discriminate|].
        read_fields. rewrite Hst. discriminate.
    + rewrite fishing_waits by assumption. cbn [fst snd].
      rewrite live_not_dead; [reflexivity|]. read_fields. rewrite Hst. discriminate.
  - rewrite update_ship_finishing by assumption.
    rewrite (live_not_dead ship) by (rewrite Hst; discriminate).
    rewrite finishing_spec by assumption.
    destruct (_ =? WIDTH - 1); cbn [fst snd activeShips].
    + unfold live. read_fields. change (Z.land DEAD (field_mask F_STATE)) with DEAD.
      rewrite Z.eqb_refl. lia.
    + rewrite live_not_dead; [reflexivity|]. read_fields. rewrite Hst. discriminate.
  - now rewrite update_ship_dead.
Qed.

Lemma process_ships_live (T : Z) (rnd : nat -> Draws) (l : list Z) :
  forall (i : nat) (w : World),
  world_inv w -> Forall ship_inv l ->
  activeShips (fst (process_ships T rnd i l w))
    - live_count (snd (process_ships T rnd i l w)) =
  activeShips w - live_count l.
Proof.
  induction l as [|ship l IH]; intros i w Hw Hl; simpl; [reflexivity|].
  inversion Hl as [|? ? Hs Hl']; subst.
  pose proof (update_ship_world_inv T (rnd i) w ship (proj1 Hs) Hw) as Hw1.
  pose proof (update_ship_live T (rnd i) w ship Hs (proj2 (proj2 (proj2 Hw)))) as H1.
  destruct (update_ship T (rnd i) w ship) as [w1 ship1]. cbn [fst snd] in *.
  pose proof (IH (S i) w1 Hw1 Hl') as H2.
  destruct (process_ships T rnd (S i) l w1) as [w2 l2]. cbn [fst snd] in *.
  simpl. lia.
Qed.

Lemma live_count_bounds (l : list Z) : 0 <= live_count l <= Z.of_nat (length l).
Proof.
  induction l as [|ship l IH]; simpl; [lia|].
  unfold live at 1 2. destruct (_ =? DEAD); lia.
Qed.

Lemma live_count_all (l : list Z) :
  Forall (fun ship => getField ship F_STATE = FISHING) l ->
  live_count l = Z.of_nat (length l).
Proof.
  induction 1 as [|ship l Hs Hl IH]; simpl; [reflexivity|].
  rewrite live_not_dead by (rewrite Hs; discriminate). lia.
Qed.

(** In every reachable state the counter is the number of ships that are
    not Dead; the array keeps its [SHIP_COUNT] entries. *)
Lemma reachable_activeShips (st : Sim) :
  reachable st ->
  length (ships st) = Z.to_nat SHIP_COUNT /\
  activeShips (world st) = live_count (ships st) /\
  0 <= activeShips (world st) <= SHIP_COUNT.
Proof.
  intros Hreach.
  assert (H : length (ships st) = Z.to_nat SHIP_COUNT /\
              activeShips (world st) = live_count (ships st)).
  { induction Hreach as [rnd Hrnd | rnd st Hreach [IHlen IHlive] Hlive Hrnd].
    - unfold init_sim. cbn [ships world init_world activeShips].
      split; [now rewrite length_map, length_seq|].
      rewrite live_count_all.
      + rewrite length_map, length_seq. reflexivity.
      + apply Forall_forall. intros ship Hin.
        apply list_elem_of_In, in_map_iff in Hin as (i & <- & _).
        apply (init_ship_getField (rnd i) (Hrnd i)).
    - destruct (reachable_inv st Hreach) as (Hw & Hl).
      destruct (sim_tick_inv rnd st Hw Hl) as (_ & _ & Hmono).
      split; [rewrite <- IHlen; symmetry; exact (Forall2_length _ _ _ Hmono)|].
      pose proof (process_ships_live (tick st) rnd (ships st) 0
                    (expire (tick st) (world st)) (expire_inv _ _ Hw) Hl) as H.
      unfold sim_tick.
      destruct (process_ships (tick st) rnd 0 (ships st) (expire (tick st) (world st)))
        as [w' l']. cbn [fst snd ships world] in *.
      unfold expire in H. cbn [activeShips] in H. lia. }
  destruct H as (Hlen & Hlive). split; [exact Hlen|]. split; [exact Hlive|].
  pose proof (live_count_bounds (ships st)) as Hb. rewrite Hlen in Hb.
  rewrite Hlive. unfold SHIP_COUNT in *. lia.
Qed.

(** * Further properties of the code *)

(** ** Composing writes of fields *)

Lemma testbit_withField (n : Z) (f : Field) (v i : Z) :
  is_u64 n -> 0 <= i ->
  Z.testbit (withField n f v) i =
  if (field_shift f <=? i) && (i <? field_shift f + field_width f)
  then Z.testbit v (i - field_shift f) else Z.testbit n i.
Proof.
  intros Hn Hi. unfold withField. rewrite field_mask_ones.
  destruct (field_layout f) as (H1 & H2 & H3).
  apply testbit_setbits; assumption || lia.
Qed.

(** X1. Writing a field twice keeps the last write only. *)
Theorem setbits_last_write_wins (record : Z) (f : Field) (v1 v2 : Z) :
  is_u64 record ->
  setbits (setbits record (field_shift f) (field_mask f) v1)
    (field_shift f) (field_mask f) v2 =
  setbits record (field_shift f) (field_mask f) v2.
Proof.
  intros Hu.
  change (withField (withField record f v1) f v2 = withField record f v2).
  apply Z.bits_inj'. intros i Hi.
  rewrite !testbit_withField by (assumption || now apply withField_is_u64).
  now destruct ((field_shift f <=? i) && (i <? field_shift f + field_width f)).
Qed.

Lemma setbits_last_write_wins_witness :
  setbits (setbits 22 (field_shift F_TIMER) (field_mask F_TIMER) 3)
    (field_shift F_TIMER) (field_mask F_TIMER) 2 =
  setbits 22 (field_shift F_TIMER) (field_mask F_TIMER) 2.
Proof.
  apply (setbits_last_write_wins 22 F_TIMER 3 2). unfold is_u64. lia.
Defined.

(** X2. Writes of two different fields can be made in either order. *)
Theorem setbits_fields_commute (record : Z) (f g : Field) (v1 v2 : Z) :
  is_u64 record -> f <> g ->
  setbits (setbits record (field_shift f) (field_mask f) v1)
    (field_shift g) (field_mask g) v2 =
  setbits (setbits record (field_shift g) (field_mask g) v2)
    (field_shift f) (field_mask f) v1.
Proof.
  intros Hu Hfg.
  change (withField (withField record f v1) g v2 = withField (withField record g v2) f v1).
  apply Z.bits_inj'. intros i Hi.
  rewrite !testbit_withField by (assumption || now apply withField_is_u64).
  destruct (field_disjoint f g Hfg) as [Hd|Hd];
    destruct (Z.leb_spec (field_shift f) i), (Z.ltb_spec i (field_shift f + field_width f)),
             (Z.leb_spec (field_shift g) i), (Z.ltb_spec i (field_shift g + field_width g));
    simpl; try reflexivity; lia.
Qed.

Lemma setbits_fields_commute_witness :
  setbits (setbits 22 (field_shift F_FISH) (field_mask F_FISH) 100)
    (field_shift F_OFFSET_X) (field_mask F_OFFSET_X) 9 =
  setbits (setbits 22 (field_shift F_OFFSET_X) (field_mask F_OFFSET_X) 9)
    (field_shift F_FISH) (field_mask F_FISH) 100.
Proof.
  apply (setbits_fields_commute 22 F_FISH F_OFFSET_X 100 9).
  - unfold is_u64. lia.
  - discriminate.
Defined.

(** ** The state machine, update by update *)

Lemma fishing_no_win (T : Z) (d : Draws) (w : World) (ty ship : Z) :
  is_u64 ship ->
  getField ship F_TIMER = 1 ->
  cells_u8 (activeCells w) ->
  let prior := stored_before d w (getField ship F_POSITION) in
  let actual := Z.min (u8 (catchRng d)) prior in
  getField ship F_FISH + actual < WIN_FISH_COUNT ->
  snd (fishing T d w ty ship) =
  after_catch d ty (prior - actual)
    (withField (withField ship F_TIMER 0) F_FISH (getField ship F_FISH + actual)).
Proof.
  intros Hu Ht Hc prior actual Hlow.
  destruct (fishing_fires T d w ty ship Hu Ht Hc) as (w' & _ & E).
  rewrite E. cbn [snd]. fold prior actual.
  rewrite Z.min_l by lia.
  destruct (Z.eqb_spec (getField ship F_FISH + actual) WIN_FISH_COUNT); [lia|reflexivity].
Qed.

Lemma update_ship_type (T : Z) (d : Draws) (w : World) (ship : Z) :
  ship_inv ship -> cells_u8 (activeCells w) ->
  getField (snd (update_ship T d w ship)) F_TYPE = getField ship F_TYPE.
Proof.
  intros (Hu & Hpos & Hfish) Hc.
  destruct (state_cases ship) as [Hst|[Hst|[Hst|Hst]]].
  - rewrite update_ship_floating by assumption. cbn [snd].
    destruct (Z.eq_dec (offsetX ship) 0) as [Hx|Hx];
      [destruct (Z.eq_dec (offsetY ship) 0) as [Hy|Hy]|].
    + rewrite floating_arrives by assumption. now read_fields.
    + now destruct (floating_moves d ship Hu Hpos (or_intror Hy)) as (_ & -> & _).
    + now destruct (floating_moves d ship Hu Hpos (or_introl Hx)) as (_ & -> & _).
  - rewrite update_ship_fishing by assumption.
    destruct (Z.eq_dec (getField ship F_TIMER) 1) as [Ht|Ht].
    + destruct (fishing_fires T d w (getField ship F_TYPE) ship Hu Ht Hc) as (w' & _ & E).
      rewrite E. cbn [snd]. destruct (_ =? WIN_FISH_COUNT).
      * now read_fields.
      * match goal with
        | |- context [after_catch d ?ty ?r ?s] =>
            destruct (after_catch_frame d ty r s) as (_ & E' & _); [field_side|]
        end. rewrite E'. now read_fields.
    + rewrite fishing_waits by assumption. cbn [snd]. now read_fields.
  - rewrite update_ship_finishing by assumption. rewrite finishing_spec by assumption.
    destruct (_ =? WIDTH - 1); cbn [snd]; now read_fields.
  - now rewrite update_ship_dead.
Qed.

Lemma update_ship_state (T : Z) (d : Draws) (w : World) (ship : Z) :
  ship_inv ship -> cells_u8 (activeCells w) ->
  let st' := getField (snd (update_ship T d w ship)) F_STATE in
  (getField ship F_STATE = FLOATING -> st' = FLOATING \/ st' = FISHING) /\
  (getField ship F_STATE = FISHING ->
   st' = FISHING \/ st' = FLOATING \/ st' = FINISHING) /\
  (getField ship F_STATE = FINISHING -> st' = FINISHING \/ st' = DEAD) /\
  (getField ship F_STATE = DEAD -> update_ship T d w ship = (w, ship)).
Proof.
  intros (Hu & Hpos & Hfish) Hc st'. subst st'.
  split; [|split; [|split]]; intros Hst.
  - rewrite update_ship_floating by assumption. cbn [snd].
    destruct (Z.eq_dec (offsetX ship) 0) as [Hx|Hx];
      [destruct (Z.eq_dec (offsetY ship) 0) as [Hy|Hy]|].
    + rewrite floating_arrives by assumption. read_fields. now right.
    + destruct (floating_moves d ship Hu Hpos (or_intror Hy)) as (_ & _ & -> & _).
      now left.
    + destruct (floating_moves d ship Hu Hpos (or_introl Hx)) as (_ & _ & -> & _).
      now left.
  - rewrite update_ship_fishing by assumption.
    destruct (Z.eq_dec (getField ship F_TIMER) 1) as [Ht|Ht].
    + destruct (fishing_fires T d w (getField ship F_TYPE) ship Hu Ht Hc) as (w' & _ & E).
      rewrite E. cbn [snd]. destruct (_ =? WIN_FISH_COUNT).
      * read_fields. right. now right.
      * match goal with
        | |- context [after_catch d ?ty ?r ?s] =>
            destruct (after_catch_state d ty r s) as [E'|E']; [field_side|..]
        end; rewrite E'; [right; now left|].
        read_fields. now left.
    + rewrite fishing_waits by assumption. cbn [snd]. read_fields. now left.
  - rewrite update_ship_finishing by assumption. rewrite finishing_spec by assumption.
    destruct (_ =? WIDTH - 1); cbn [snd]; read_fields; [now right | now left].
  - now apply update_ship_dead.
Qed.

(** X3. One update never changes the type of a ship and moves its state
    only along the edges Floating -> Floating or Fishing, Fishing -> Fishing,
    Floating or Finishing, Finishing -> Finishing or Dead; a Dead ship and
    the world around it are left exactly as they are. *)
Theorem update_ship_edges (T : Z) (d : Draws) (w : World) (ship : Z) :
  ship_inv ship -> cells_u8 (activeCells w) ->
  let ship' := snd (update_ship T d w ship) in
  let st := getbits ship STATE_SHIFT MASK_2BIT in
  let st' := getbits ship' STATE_SHIFT MASK_2BIT in
  Z.land ship' MASK_2BIT = Z.land ship MASK_2BIT /\
  (st = FLOATING -> st' = FLOATING \/ st' = FISHING) /\
  (st = FISHING -> st' = FISHING \/ st' = FLOATING \/ st' = FINISHING) /\
  (st = FINISHING -> st' = FINISHING \/ st' = DEAD) /\
  (st = DEAD -> update_ship T d w ship = (w, ship)).
Proof.
  intros Hs Hc ship' st st'. subst ship' st st'. fold_fields.
  split; [now apply update_ship_type|]. now apply update_ship_state.
Qed.

Lemma update_ship_edges_witness :
  update_ship 7 (mkDraws 1 5 7 15 8 8) init_world (withField 0 F_STATE DEAD)
  = (init_world, withField 0 F_STATE DEAD).
Proof.
  assert (Hs : ship_inv (withField 0 F_STATE DEAD))
    by (vm_compute; repeat split; congruence).
  assert (Hc : cells_u8 (activeCells init_world)) by apply init_world_inv.
  destruct (update_ship_edges 7 (mkDraws 1 5 7 15 8 8) init_world
              (withField 0 F_STATE DEAD) Hs Hc) as (_ & _ & _ & _ & Hdead).
  apply Hdead. vm_compute. reflexivity.
Defined.

(** X4. A floating ship with both offsets at zero has arrived: the update
    makes it Fishing with the drawn countdown and leaves its position, its
    catch, its offsets, its type and the world as they are. *)
Theorem floating_arrival (T : Z) (d : Draws) (w : World) (ship : Z) :
  is_u64 ship ->
  getField ship F_STATE = FLOATING ->
  offsetX ship = 0 -> offsetY ship = 0 ->
  1 <= shipTimerRng d <= 3 ->
  let ship' := snd (update_ship T d w ship) in
  fst (update_ship T d w ship) = w /\
  getField ship' F_STATE = FISHING /\
  getField ship' F_TIMER = shipTimerRng d /\
  getField ship' F_POSITION = getField ship F_POSITION /\
  getField ship' F_FISH = getField ship F_FISH /\
  getField ship' F_TYPE = getField ship F_TYPE /\
  offsetX ship' = 0 /\ offsetY ship' = 0.
Proof.
  intros Hu Hst Hx Hy Hd ship'. subst ship'.
  rewrite update_ship_floating by assumption. cbn [fst snd].
  rewrite floating_arrives by assumption.
  rewrite (u64_lin (shipTimerRng d)) by lia.
  rewrite !offsetX_getField, !offsetY_getField in *.
  read_fields. repeat split; assumption || reflexivity.
Qed.

Lemma floating_arrival_witness :
  getField (snd (update_ship 7 (mkDraws 2 5 7 15 8 8) init_world
                   (withField (withField 0 F_OFFSET_X 8) F_OFFSET_Y 8))) F_TIMER = 2.
Proof.
  set (ship := withField (withField 0 F_OFFSET_X 8) F_OFFSET_Y 8).
  assert (Hu : is_u64 ship) by (vm_compute; split; congruence).
  assert (Hd : 1 <= shipTimerRng (mkDraws 2 5 7 15 8 8) <= 3) by (simpl; lia).
  destruct (floating_arrival 7 (mkDraws 2 5 7 15 8 8) init_world ship Hu
              eq_refl eq_refl eq_refl Hd) as (_ & _ & Ht & _).
  exact Ht.
Defined.

(** X5. A step along Y keeps the column of the ship and moves it by one
    row, wrapping between the first and the last row of the grid: a positive
    Y offset goes to the row before, a negative one to the row after. *)
Theorem floating_vertical_step (T : Z) (d : Draws) (w : World) (ship : Z) :
  is_u64 ship ->
  getField ship F_STATE = FLOATING ->
  getField ship F_POSITION <= POSITION_BOUND ->
  offsetX ship = 0 -> offsetY ship <> 0 ->
  let p := getField ship F_POSITION in
  let p' := getField (snd (update_ship T d w ship)) F_POSITION in
  p' mod WIDTH = p mod WIDTH /\
  (0 < offsetY ship -> p' / WIDTH = (p / WIDTH - 1) mod HEIGHT) /\
  (offsetY ship < 0 -> p' / WIDTH = (p / WIDTH + 1) mod HEIGHT).
Proof.
  intros Hu Hst Hpos Hx Hy p p'. subst p p'.
  rewrite update_ship_floating by assumption. cbn [snd].
  destruct (floating_moves d ship Hu Hpos (or_intror Hy))
    as (_ & _ & _ & _ & _ & _ & _ & Hyp & Hyn).
  destruct (field_ranges ship) as (_ & _ & _ & _ & Hp & _).
  set (p := getField ship F_POSITION) in *.
  unfold POSITION_BOUND, WIDTH, HEIGHT in *.
  destruct (Z.lt_total 0 (offsetY ship)) as [Hs|[Hs|Hs]]; [|lia|].
  - destruct (Hyp Hx Hs) as (_ & _ & ->).
    destruct (Z.ltb_spec p 1000) as [Hrow|Hrow];
      (split; [|split; [intros _|lia]]); Z.div_mod_to_equations; lia.
  - destruct (Hyn Hx Hs) as (_ & _ & ->).
    destruct (Z.ltb_spec (1000 * 1000 - 1) (p + 1000)) as [Hrow|Hrow];
      (split; [|split; [lia|intros _]]); Z.div_mod_to_equations; lia.
Qed.

Lemma floating_vertical_step_witness :
  getField (snd (update_ship 7 (mkDraws 2 5 7 15 8 8) init_world
                   (withField (withField (withField 0 F_OFFSET_X 8) F_OFFSET_Y 9)
                      F_POSITION 5))) F_POSITION / WIDTH = 999.
Proof.
  set (ship := withField (withField (withField 0 F_OFFSET_X 8) F_OFFSET_Y 9) F_POSITION 5).
  assert (Hu : is_u64 ship) by (vm_compute; split; congruence).
  assert (Hpos : getField ship F_POSITION <= POSITION_BOUND) by (vm_compute; congruence).
  assert (Hy : offsetY ship <> 0) by (vm_compute; congruence).
  destruct (floating_vertical_step 7 (mkDraws 2 5 7 15 8 8) init_world ship Hu
              eq_refl Hpos eq_refl Hy) as (_ & Hup & _).
  rewrite Hup by (vm_compute; reflexivity). vm_compute. reflexivity.
Defined.

(** ** The fishing branch, case by case *)

(** X6. A fishing ship whose countdown is 2 or 3 only counts down: the
    update writes the countdown minus one and changes nothing else, neither
    in the record nor in the world. *)
Theorem fishing_countdown (T : Z) (d : Draws) (w : World) (ship : Z) :
  is_u64 ship ->
  getField ship F_STATE = FISHING ->
  2 <= getField ship F_TIMER <= 3 ->
  update_ship T d w ship =
    (w, setbits ship TIMER_SHIFT MASK_2BIT (getField ship F_TIMER - 1)) /\
  getField (snd (update_ship T d w ship)) F_TIMER = getField ship F_TIMER - 1 /\
  forall f : Field, f <> F_TIMER ->
    getField (snd (update_ship T d w ship)) f = getField ship f.
Proof.
  intros Hu Hst Ht.
  rewrite update_ship_fishing by assumption.
  rewrite fishing_waits by lia. cbn [snd].
  rewrite u8_small by lia. fold_fields.
  split; [reflexivity|]. split.
  - apply getField_withField_fits; [assumption|]. simpl. unfold MASK_2BIT. lia.
  - intros f Hf. apply getField_withField_other; [assumption|congruence].
Qed.

Lemma fishing_countdown_witness :
  getField (snd (update_ship 7 (mkDraws 2 5 7 15 8 8) init_world
                   (withField (withField 0 F_STATE FISHING) F_TIMER 3))) F_TIMER = 2.
Proof.
  set (ship := withField (withField 0 F_STATE FISHING) F_TIMER 3).
  assert (Hu : is_u64 ship) by (vm_compute; split; congruence).
  assert (Ht : 2 <= getField ship F_TIMER <= 3) by (vm_compute; split; congruence).
  destruct (fishing_countdown 7 (mkDraws 2 5 7 15 8 8) init_world ship Hu eq_refl Ht)
    as (_ & H & _).
  exact H.
Defined.

(** X7. When the countdown of a fishing ship fires, its catch total becomes
    the old total plus the actual catch, cut at the winning count; the ship
    stays where it is, and it is Finishing afterwards exactly when the total
    has reached the winning count. *)
Theorem catch_adds_saturating (T : Z) (d : Draws) (w : World) (ship : Z) :
  is_u64 ship ->
  getField ship F_STATE = FISHING ->
  getField ship F_TIMER = 1 ->
  cells_u8 (activeCells w) ->
  let actual :=
    Z.min (u8 (catchRng d)) (stored_before d w (getField ship F_POSITION)) in
  let ship' := snd (update_ship T d w ship) in
  getField ship' F_FISH = Z.min (getField ship F_FISH + actual) WIN_FISH_COUNT /\
  getField ship' F_POSITION = getField ship F_POSITION /\
  (getField ship' F_STATE = FINISHING <->
   WIN_FISH_COUNT <= getField ship F_FISH + actual).
Proof.
  intros Hu Hst Ht Hc actual ship'. subst ship'.
  rewrite update_ship_fishing by assumption.
  destruct (fishing_fires T d w (getField ship F_TYPE) ship Hu Ht Hc) as (w' & _ & E).
  rewrite E. cbn [snd]. clear E. fold actual.
  pose proof (stored_before_range d w (getField ship F_POSITION) Hc) as Hprior.
  pose proof (u8_range (catchRng d)) as Hreq.
  destruct (field_ranges ship) as (_ & _ & _ & Hf & _).
  assert (HW : WIN_FISH_COUNT = 10000) by reflexivity.
  set (total := Z.min (getField ship F_FISH + actual) WIN_FISH_COUNT).
  assert (Htot : 0 <= total <= WIN_FISH_COUNT) by (subst total actual; lia).
  set (caught := withField (withField ship F_TIMER 0) F_FISH total).
  assert (Hcu : is_u64 caught) by (subst caught; field_side).
  assert (Hcf : getField caught F_FISH = total)
    by (subst caught; apply getField_withField_fits; [field_side | fits_side]).
  assert (Hcp : getField caught F_POSITION = getField ship F_POSITION)
    by (subst caught; read_fields; reflexivity).
  assert (Hcs : getField caught F_STATE = FISHING)
    by (subst caught; read_fields; assumption).
  destruct (Z.eqb_spec total WIN_FISH_COUNT) as [Hwin|Hlow].
  - read_fields. rewrite Hcf, Hcp. repeat split; try reflexivity.
    intros _. subst total. lia.
  - destruct (after_catch_frame d (getField ship F_TYPE)
                (stored_before d w (getField ship F_POSITION) - actual) caught Hcu)
      as (_ & _ & Haf & Hap).
    rewrite Haf, Hap, Hcf, Hcp. split; [reflexivity|]. split; [reflexivity|].
    destruct (after_catch_state d (getField ship F_TYPE)
                (stored_before d w (getField ship F_POSITION) - actual) caught Hcu)
      as [Es|Es]; rewrite Es, ?Hcs; (split; [discriminate | intros Hge; subst total; lia]).
Qed.

Lemma catch_adds_saturating_witness :
  getField (snd (update_ship 7 (mkDraws 2 5 3 15 8 8) init_world
                   (withField (withField (withField 0 F_STATE FISHING) F_TIMER 1)
                      F_FISH 40))) F_FISH = 43.
Proof.
  set (ship := withField (withField (withField 0 F_STATE FISHING) F_TIMER 1) F_FISH 40).
  assert (Hu : is_u64 ship) by (vm_compute; split; congruence).
  assert (Hc : cells_u8 (activeCells init_world)) by apply init_world_inv.
  destruct (catch_adds_saturating 7 (mkDraws 2 5 3 15 8 8) init_world ship Hu
              eq_refl eq_refl Hc) as (H & _).
  rewrite H. vm_compute. reflexivity.
Defined.

(** X8. A Greedy ship after a catch that does not win: when the cell is
    left empty it floats, with the two drawn offsets (each minus the bias 8)
    and the countdown at 0; when fish is left it keeps fishing with the drawn
    countdown and its offsets as they were.  The cell stores what the catch
    left. *)
Theorem greedy_after_catch (T : Z) (d : Draws) (w : World) (ship : Z) :
  is_u64 ship ->
  getField ship F_TYPE = GREEDY ->
  getField ship F_STATE = FISHING ->
  getField ship F_TIMER = 1 ->
  cells_u8 (activeCells w) ->
  valid_draws d ->
  let prior := stored_before d w (getField ship F_POSITION) in
  let actual := Z.min (catchRng d) prior in
  getField ship F_FISH + actual < WIN_FISH_COUNT ->
  let w' := fst (update_ship T d w ship) in
  let ship' := snd (update_ship T d w ship) in
  activeCells w' !! getField ship F_POSITION = Some (prior - actual) /\
  (prior - actual = 0 ->
   getField ship' F_STATE = FLOATING /\ getField ship' F_TIMER = 0 /\
   offsetX ship' = shipOffsetRng1 d - 8 /\ offsetY ship' = shipOffsetRng2 d - 8) /\
  (prior - actual <> 0 ->
   getField ship' F_STATE = FISHING /\ getField ship' F_TIMER = shipTimerRng d /\
   offsetX ship' = offsetX ship /\ offsetY ship' = offsetY ship).
Proof.
  intros Hu Hty Hst Ht Hc Hd prior actual Hlow w' ship'. subst w' ship'.
  destruct Hd as (Hd1 & Hd2 & _ & _ & Hd5 & Hd6).
  assert (Hreq : u8 (catchRng d) = catchRng d) by (apply u8_small; lia).
  rewrite update_ship_fishing by assumption. rewrite Hty.
  rewrite fishing_world, Ht by assumption. change (1 =? 1) with true. cbv iota.
  destruct (consume_facts T d w (getField ship F_POSITION) (u8 (catchRng d))
              (u8_range _) Hc) as (w' & E & Hcells & _).
  rewrite fishing_no_win by (rewrite ?Hreq; assumption).
  rewrite E, Hreq. cbn [snd]. fold prior actual. rewrite Hcells, Hreq. fold prior actual.
  split; [apply lookup_insert_eq|].
  pose proof (stored_before_range d w (getField ship F_POSITION) Hc) as Hprior.
  fold prior in Hprior.
  destruct (field_ranges ship) as (_ & _ & _ & Hf & _ & Hx & Hy).
  unfold after_catch. change (GREEDY =? GREEDY) with true. cbv iota. fold_fields.
  rewrite !offsetX_getField, !offsetY_getField.
  rewrite (u64_lin (shipOffsetRng1 d)), (u64_lin (shipOffsetRng2 d)),
    (u64_lin (shipTimerRng d)) by lia.
  destruct (Z.eqb_spec (prior - actual) 0) as [Hz|Hnz].
  - split; [intros _|intros Hn; lia]. read_fields. repeat split; reflexivity.
  - split; [intros Hn; lia|intros _]. read_fields. repeat split; assumption || reflexivity.
Qed.

Lemma greedy_after_catch_witness :
  getField (snd (update_ship 7 (mkDraws 2 5 3 15 8 8) init_world
                   (withField (withField 0 F_STATE FISHING) F_TIMER 1))) F_STATE
  = FLOATING.
Proof.
  set (ship := withField (withField 0 F_STATE FISHING) F_TIMER 1).
  set (d := mkDraws 2 5 3 15 8 8).
  assert (Hu : is_u64 ship) by (vm_compute; split; congruence).
  assert (Hc : cells_u8 (activeCells init_world)) by apply init_world_inv.
  assert (Hd : valid_draws d) by (vm_compute; repeat split; congruence).
  assert (Hlow : getField ship F_FISH +
            Z.min (catchRng d) (stored_before d init_world (getField ship F_POSITION))
            < WIN_FISH_COUNT) by (vm_compute; reflexivity).
  destruct (greedy_after_catch 7 d init_world ship Hu eq_refl eq_refl eq_refl Hc Hd Hlow)
    as (_ & Hempty & _).
  apply Hempty. vm_compute. reflexivity.
Defined.

(** X9. A Lazy ship after a catch that does not win keeps fishing with the
    drawn countdown; its position and its offsets are as before. *)
Theorem lazy_after_catch (T : Z) (d : Draws) (w : World) (ship : Z) :
  is_u64 ship ->
  getField ship F_TYPE = LAZY ->
  getField ship F_STATE = FISHING ->
  getField ship F_TIMER = 1 ->
  cells_u8 (activeCells w) ->
  valid_draws d ->
  getField ship F_FISH +
    Z.min (catchRng d) (stored_before d w (getField ship F_POSITION)) < WIN_FISH_COUNT ->
  let ship' := snd (update_ship T d w ship) in
  getField ship' F_STATE = FISHING /\
  getField ship' F_TIMER = shipTimerRng d /\
  getField ship' F_POSITION = getField ship F_POSITION /\
  offsetX ship' = offsetX ship /\ offsetY ship' = offsetY ship.
Proof.
  intros Hu Hty Hst Ht Hc Hd Hlow ship'. subst ship'.
  destruct Hd as (Hd1 & Hd2 & _).
  assert (Hreq : u8 (catchRng d) = catchRng d) by (apply u8_small; lia).
  rewrite update_ship_fishing by assumption. rewrite Hty.
  rewrite fishing_no_win by (rewrite ?Hreq; assumption).
  unfold after_catch. change (LAZY =? GREEDY) with false.
  change (LAZY =? LAZY) with true. cbv iota. fold_fields.
  rewrite !offsetX_getField, !offsetY_getField.
  rewrite (u64_lin (shipTimerRng d)) by lia.
  destruct (field_ranges ship) as (_ & _ & _ & Hf & _).
  pose proof (stored_before_range d w (getField ship F_POSITION) Hc) as Hprior.
  read_fields. repeat split; assumption || reflexivity.
Qed.

Lemma lazy_after_catch_witness :
  getField (snd (update_ship 7 (mkDraws 2 5 3 15 8 8) init_world
                   (init_ship (mkInitDraws LAZY 1 77)))) F_POSITION = 77.
Proof.
  set (ship := init_ship (mkInitDraws LAZY 1 77)).
  set (d := mkDraws 2 5 3 15 8 8).
  assert (Hu : is_u64 ship) by (vm_compute; split; congruence).
  assert (Hc : cells_u8 (activeCells init_world)) by apply init_world_inv.
  assert (Hd : valid_draws d) by (vm_compute; repeat split; congruence).
  assert (Hlow : getField ship F_FISH +
            Z.min (catchRng d) (stored_before d init_world (getField ship F_POSITION))
            < WIN_FISH_COUNT) by (vm_compute; reflexivity).
  destruct (lazy_after_catch 7 d init_world ship Hu eq_refl eq_refl eq_refl Hc Hd Hlow)
    as (_ & _ & Hp & _).
  rewrite Hp. vm_compute. reflexivity.
Defined.

(** ** The order of a tick *)

Lemma process_ships_lookup (T : Z) (rnd : nat -> Draws) (l : list Z) :
  forall (j : nat) (w : World) (i : nat) (ship : Z),
  l !! i = Some ship ->
  snd (process_ships T rnd j l w) !! i =
  Some (snd (update_ship T (rnd (j + i)%nat)
               (fst (process_ships T rnd j (take i l) w)) ship)).
Proof.
  induction l as [|a l IH]; intros j w i ship Hi; [discriminate|].
  destruct i as [|i].
  - injection Hi as ->. simpl. rewrite Nat.add_0_r.
    destruct (update_ship T (rnd j) w ship) as [w1 ship1].
    now destruct (process_ships T rnd (S j) l w1).
  - change ((a :: l) !! S i) with (l !! i) in Hi.
    change (take (S i) (a :: l)) with (a :: take i l). simpl.
    destruct (update_ship T (rnd j) w a) as [w1 a1].
    specialize (IH (S j) w1 i ship Hi).
    replace (j + S i)%nat with (S j + i)%nat by lia.
    destruct (process_ships T rnd (S j) l w1) as [w2 l2].
    destruct (process_ships T rnd (S j) (take i l) w1) as [w3 l3].
    exact IH.
Qed.

Lemma process_ships_length (T : Z) (rnd : nat -> Draws) (l : list Z) :
  forall (j : nat) (w : World), length (snd (process_ships T rnd j l w)) = length l.
Proof.
  induction l as [|a l IH]; intros j w; simpl; [reflexivity|].
  destruct (update_ship T (rnd j) w a) as [w1 a1].
  specialize (IH (S j) w1). destruct (process_ships T rnd (S j) l w1). simpl in *. lia.
Qed.

Lemma sim_tick_ships (rnd : nat -> Draws) (st : Sim) :
  ships (sim_tick rnd st) =
  snd (process_ships (tick st) rnd 0 (ships st) (expire (tick st) (world st))).
Proof.
  unfold sim_tick.
  now destruct (process_ships (tick st) rnd 0 (ships st) (expire (tick st) (world st))).
Qed.

(** Ship [i] after a tick is ship [i] updated once, in the world that the
    drain and the ships before it have left. *)
Lemma sim_tick_ship (rnd : nat -> Draws) (st : Sim) (i : nat) (ship : Z) :
  ships st !! i = Some ship ->
  ships (sim_tick rnd st) !! i =
  Some (snd (update_ship (tick st) (rnd i) (mid_tick rnd i st) ship)).
Proof.
  intros Hi. rewrite sim_tick_ships.
  now rewrite (process_ships_lookup _ _ _ 0%nat _ i ship Hi).
Qed.

Lemma mid_tick_step (rnd : nat -> Draws) (st : Sim) (i : nat) (ship : Z) :
  ships st !! i = Some ship ->
  mid_tick rnd (S i) st = fst (update_ship (tick st) (rnd i) (mid_tick rnd i st) ship).
Proof.
  intros Hi. unfold mid_tick.
  rewrite (take_S_r _ _ _ Hi), process_ships_app.
  assert (Hlen : length (take i (ships st)) = i).
  { rewrite length_take. apply lookup_lt_Some in Hi. lia. }
  destruct (process_ships (tick st) rnd 0 (take i (ships st))
              (expire (tick st) (world st))) as [w1 l1].
  rewrite Hlen. simpl.
  now destruct (update_ship (tick st) (rnd i) w1 ship).
Qed.

(** X10. One tick, in order: the due slot is drained first; then every ship
    is updated exactly once, in array order, each in the world that the
    ships before it have left; the world after the last ship is the world
    of the next tick, and the array keeps its length. *)
Theorem tick_sequencing (rnd : nat -> Draws) (st : Sim) (i : nat) (ship : Z) :
  ships st !! i = Some ship ->
  mid_tick rnd 0 st = expire (tick st) (world st) /\
  ships (sim_tick rnd st) !! i =
    Some (snd (update_ship (tick st) (rnd i) (mid_tick rnd i st) ship)) /\
  mid_tick rnd (S i) st =
    fst (update_ship (tick st) (rnd i) (mid_tick rnd i st) ship) /\
  world (sim_tick rnd st) = mid_tick rnd (length (ships st)) st /\
  length (ships (sim_tick rnd st)) = length (ships st).
Proof.
  intros Hi. split; [reflexivity|]. split; [now apply sim_tick_ship|].
  split; [now apply mid_tick_step|]. split.
  - rewrite sim_tick_world. unfold mid_tick. now rewrite firstn_all.
  - rewrite sim_tick_ships. apply process_ships_length.
Qed.

Lemma tick_sequencing_witness :
  ships (sim_tick (fun _ => mkDraws 2 5 3 15 8 8)
           (mkSim [init_ship (mkInitDraws LAZY 3 77)] init_world 1)) !! 0%nat =
  Some (snd (update_ship 1 (mkDraws 2 5 3 15 8 8)
               (mid_tick (fun _ => mkDraws 2 5 3 15 8 8) 0
                  (mkSim [init_ship (mkInitDraws LAZY 3 77)] init_world 1))
               (init_ship (mkInitDraws LAZY 3 77)))).
Proof.
  apply (tick_sequencing (fun _ => mkDraws 2 5 3 15 8 8)
           (mkSim [init_ship (mkInitDraws LAZY 3 77)] init_world 1) 0
           (init_ship (mkInitDraws LAZY 3 77))).
  reflexivity.
Defined.

(** ** Draining a slot *)

(** X11. Draining at tick [T] empties slot [T mod 30] and leaves the other
    slots as they are; it erases from the map exactly the cells that were
    in that slot, leaves every other cell with its amount, and does not
    touch the counter of live ships. *)
Theorem expire_drains_slot (T : Z) (w : World) :
  length (cellsTimers w) = 30%nat ->
  let s := Z.to_nat (T mod 30) in
  let due := default [] (cellsTimers w !! s) in
  cellsTimers (expire T w) !! s = Some [] /\
  (forall j : nat, j <> s -> cellsTimers (expire T w) !! j = cellsTimers w !! j) /\
  (forall c : Z, c ∈ due -> activeCells (expire T w) !! c = None) /\
  (forall c : Z, c ∉ due -> activeCells (expire T w) !! c = activeCells w !! c) /\
  activeShips (expire T w) = activeShips w.
Proof.
  intros Hlen s due. subst s due. unfold expire. cbn [cellsTimers activeCells activeShips].
  pose proof (slot_index_lt T (cellsTimers w) Hlen) as Hidx.
  split; [now apply list_lookup_insert_eq|]. split; [|split; [|split; [|reflexivity]]].
  - intros j Hj. apply list_lookup_insert_ne. congruence.
  - intros c Hc. rewrite foldl_delete_lookup. now rewrite decide_True.
  - intros c Hc. rewrite foldl_delete_lookup. now rewrite decide_False.
Qed.

Lemma expire_drains_slot_witness :
  cellsTimers (expire 61 init_world) !! Z.to_nat (61 mod 30) = Some [].
Proof.
  assert (Hlen : length (cellsTimers init_world) = 30%nat) by reflexivity.
  destruct (expire_drains_slot 61 init_world Hlen) as (Hempty & _).
  exact Hempty.
Defined.

(** ** Invariants of the reachable states *)

(** X12. In every reachable state every ship record is a 64-bit word whose
    position is a cell of the grid. *)
Theorem position_on_grid (st : Sim) :
  reachable st ->
  Forall (fun ship =>
            is_u64 ship /\
            0 <= getbits ship POSITION_SHIFT MASK_34BIT <= POSITION_BOUND)
    (ships st).
Proof.
  intros Hreach. destruct (reachable_inv st Hreach) as (_ & Hl).
  eapply Forall_impl; [exact Hl|]. intros ship (Hu & Hpos & _). fold_fields.
  destruct (field_ranges ship) as (_ & _ & _ & _ & Hp & _).
  split; [assumption|]. split; [apply Hp | assumption].
Qed.

Lemma position_on_grid_witness :
  Forall (fun ship =>
            is_u64 ship /\
            0 <= getbits ship POSITION_SHIFT MASK_34BIT <= POSITION_BOUND)
    (ships (init_sim (fun _ => mkInitDraws GREEDY 2 999999))).
Proof.
  apply position_on_grid. apply reach_init. intros i. cbv. repeat split; congruence.
Defined.

(** The countdown and the type *)

Lemma update_ship_timer_inv (T : Z) (d : Draws) (w : World) (ship : Z) :
  ship_inv ship -> cells_u8 (activeCells w) -> valid_draws d ->
  timer_inv ship -> timer_inv (snd (update_ship T d w ship)).
Proof.
  intros Hs Hc Hd (Hty & Htm). split.
  { now rewrite update_ship_type. }
  destruct Hs as (Hu & Hpos & Hfish).
  destruct Hd as (Hd1 & _).
  assert (Hdraw : u64 (shipTimerRng d) = shipTimerRng d) by (apply u64_lin; lia).
  destruct (state_cases ship) as [Hst|[Hst|[Hst|Hst]]].
  - rewrite update_ship_floating by assumption. cbn [snd].
    destruct (Z.eq_dec (offsetX ship) 0) as [Hx|Hx];
      [destruct (Z.eq_dec (offsetY ship) 0) as [Hy|Hy]|].
    + rewrite floating_arrives, Hdraw by assumption. intros _.
      rewrite getField_withField_fits; [lia | field_side | simpl; unfold MASK_2BIT; lia].
    + destruct (floating_moves d ship Hu Hpos (or_intror Hy)) as (_ & _ & -> & _).
      rewrite Hst. discriminate.
    + destruct (floating_moves d ship Hu Hpos (or_introl Hx)) as (_ & _ & -> & _).
      rewrite Hst. discriminate.
  - specialize (Htm Hst). rewrite update_ship_fishing by assumption.
    destruct (Z.eq_dec (getField ship F_TIMER) 1) as [Ht|Ht].
    + destruct (fishing_fires T d w (getField ship F_TYPE) ship Hu Ht Hc) as (w' & _ & E).
      rewrite E. cbn [snd]. destruct (_ =? WIN_FISH_COUNT).
      * read_fields. discriminate.
      * unfold after_catch. fold_fields. rewrite Hdraw.
        destruct (field_ranges ship) as (Hr & _).
        unfold GREEDY, LAZY, RESTLESS in *.
        assert (Hcase : getField ship F_TYPE = 0 \/ getField ship F_TYPE = 1 \/
                        getField ship F_TYPE = 2) by lia.
        destruct Hcase as [-> | [-> | ->]]; simpl Z.eqb; cbv iota.
        -- destruct (_ =? 0).
           ++ read_fields. discriminate.
           ++ intros _. rewrite getField_withField_fits;
                [lia | field_side | simpl; unfold MASK_2BIT; lia].
        -- intros _. rewrite getField_withField_fits;
             [lia | field_side | simpl; unfold MASK_2BIT; lia].
        -- read_fields. discriminate.
    + rewrite fishing_waits by assumption. cbn [snd]. intros _.
      rewrite u8_small by lia.
      rewrite getField_withField_fits; [lia | assumption | simpl; unfold MASK_2BIT; lia].
  - rewrite update_ship_finishing by assumption. rewrite finishing_spec by assumption.
    destruct (_ =? WIDTH - 1); cbn [snd]; read_fields; [discriminate|].
    rewrite Hst. discriminate.
  - rewrite update_ship_dead by assumption. cbn [snd]. rewrite Hst. discriminate.
Qed.

Lemma process_ships_timer_inv (T : Z) (rnd : nat -> Draws) (l : list Z) :
  forall (i : nat) (w : World),
  (forall j, valid_draws (rnd j)) ->
  world_inv w -> Forall ship_inv l -> Forall timer_inv l ->
  Forall timer_inv (snd (process_ships T rnd i l w)).
Proof.
  induction l as [|ship l IH]; intros i w Hrnd Hw Hl Ht; simpl; [constructor|].
  inversion Hl as [|? ? Hs Hl']; subst. inversion Ht as [|? ? Hts Ht']; subst.
  pose proof (update_ship_world_inv T (rnd i) w ship (proj1 Hs) Hw) as Hw1.
  pose proof (update_ship_timer_inv T (rnd i) w ship Hs
                (proj2 (proj2 (proj2 Hw))) (Hrnd i) Hts) as H1.
  destruct (update_ship T (rnd i) w ship) as [w1 ship1]. cbn [fst snd] in *.
  pose proof (IH (S i) w1 Hrnd Hw1 Hl' Ht') as H2.
  destruct (process_ships T rnd (S i) l w1) as [w2 l2]. cbn [snd] in *.
  now constructor.
Qed.

Lemma reachable_timer_inv (st : Sim) : reachable st -> Forall timer_inv (ships st).
Proof.
  induction 1 as [rnd Hrnd | rnd st Hreach IH Hlive Hrnd].
  - unfold init_sim. cbn [ships]. apply Forall_forall. intros ship Hin.
    apply list_elem_of_In, in_map_iff in Hin as (i & <- & _).
    destruct (init_ship_getField (rnd i) (Hrnd i)) as (_ & Hty & Hst & Htm & _).
    destruct (Hrnd i) as (H1 & H2 & _).
    unfold timer_inv. rewrite Hty, Htm. unfold RESTLESS. split; [lia|intros _; lia].
  - destruct (reachable_inv st Hreach) as (Hw & Hl).
    rewrite sim_tick_ships.
    apply process_ships_timer_inv; try assumption. now apply expire_inv.
Qed.

(** X13. In every reachable state every ship has one of the three types,
    and every fishing ship has a countdown from 1 to 3, so the decrement
    of the 8-bit countdown in the fishing branch never wraps below 0. *)
Theorem fishing_countdown_in_range (st : Sim) :
  reachable st ->
  Forall (fun ship =>
            Z.land ship MASK_2BIT <= RESTLESS /\
            (getbits ship STATE_SHIFT MASK_2BIT = FISHING ->
             1 <= getbits ship TIMER_SHIFT MASK_2BIT <= 3 /\
             u8 (u8 (getbits ship TIMER_SHIFT MASK_2BIT) - 1) =
               getbits ship TIMER_SHIFT MASK_2BIT - 1))
    (ships st).
Proof.
  intros Hreach. eapply Forall_impl; [exact (reachable_timer_inv st Hreach)|].
  intros ship (Hty & Htm). fold_fields. split; [exact Hty|].
  intros Hst. specialize (Htm Hst). split; [exact Htm|].
  rewrite (u8_field2 ship F_TIMER) by reflexivity. apply u8_small. lia.
Qed.

Lemma fishing_countdown_in_range_witness :
  Forall (fun ship =>
            Z.land ship MASK_2BIT <= RESTLESS /\
            (getbits ship STATE_SHIFT MASK_2BIT = FISHING ->
             1 <= getbits ship TIMER_SHIFT MASK_2BIT <= 3 /\
             u8 (u8 (getbits ship TIMER_SHIFT MASK_2BIT) - 1) =
               getbits ship TIMER_SHIFT MASK_2BIT - 1))
    (ships (init_sim (fun _ => mkInitDraws GREEDY 2 999999))).
Proof.
  apply fishing_countdown_in_range. apply reach_init. intros i.
  cbv. repeat split; congruence.
Defined.

(** The active cells *)

Lemma cells_inv_u8 (cells : gmap Z Z) : cells_inv cells -> cells_u8 cells.
Proof. intros H c v Hv. destruct (H c v Hv) as (_ & Hr). lia. Qed.

Lemma expire_cells_inv (T : Z) (w : World) :
  cells_inv (activeCells w) -> cells_inv (activeCells (expire T w)).
Proof.
  intros H c v. unfold expire. cbn [activeCells]. rewrite foldl_delete_lookup.
  destruct (decide _); [discriminate|apply H].
Qed.

Lemma update_ship_cells_inv (T : Z) (d : Draws) (w : World) (ship : Z) :
  ship_inv ship -> valid_draws d ->
  cells_inv (activeCells w) ->
  cells_inv (activeCells (fst (update_ship T d w ship))).
Proof.
  intros (Hu & Hpos & Hfish) Hd Hc.
  pose proof (cells_inv_u8 _ Hc) as Hc8.
  destruct (state_cases ship) as [Hst|[Hst|[Hst|Hst]]].
  - now rewrite update_ship_floating.
  - rewrite update_ship_fishing by assumption.
    rewrite fishing_world by assumption.
    destruct (getField ship F_TIMER =? 1); [|assumption].
    destruct (consume_facts T d w (getField ship F_POSITION) (u8 (catchRng d))
                (u8_range _) Hc8) as (w' & E & Hcells & _).
    rewrite E. cbn [snd]. rewrite Hcells.
    destruct (field_ranges ship) as (_ & _ & _ & _ & Hp & _).
    pose proof (u8_range (catchRng d)) as Hreq.
    assert (Hprior : 0 <= stored_before d w (getField ship F_POSITION) <= 15).
    { unfold stored_before.
      destruct (activeCells w !! getField ship F_POSITION) as [v|] eqn:Ev.
      - apply (Hc _ _ Ev).
      - destruct Hd as (_ & _ & Hf & _). rewrite u8_small by lia. lia. }
    intros c v. rewrite lookup_insert.
    destruct (decide (getField ship F_POSITION = c)) as [<-|Hne].
    + intros [= <-]. lia.
    + apply Hc.
  - rewrite update_ship_finishing by assumption.
    now destruct (finishing_inv w ship (conj Hu (conj Hpos Hfish))) as (_ & _ & -> & _).
  - now rewrite update_ship_dead.
Qed.

Lemma process_ships_cells_inv (T : Z) (rnd : nat -> Draws) (l : list Z) :
  forall (i : nat) (w : World),
  (forall j, valid_draws (rnd j)) ->
  world_inv w -> Forall ship_inv l -> cells_inv (activeCells w) ->
  cells_inv (activeCells (fst (process_ships T rnd i l w))).
Proof.
  induction l as [|ship l IH]; intros i w Hrnd Hw Hl Hc; simpl; [assumption|].
  inversion Hl as [|? ? Hs Hl']; subst.
  pose proof (update_ship_world_inv T (rnd i) w ship (proj1 Hs) Hw) as Hw1.
  pose proof (update_ship_cells_inv T (rnd i) w ship Hs (Hrnd i) Hc) as Hc1.
  destruct (update_ship_ship_inv T (rnd i) w ship Hs (proj2 (proj2 (proj2 Hw)))) as (_ & _).
  destruct (update_ship T (rnd i) w ship) as [w1 ship1]. cbn [fst snd] in *.
  pose proof (IH (S i) w1 Hrnd Hw1 Hl' Hc1) as H2.
  now destruct (process_ships T rnd (S i) l w1) as [w2 l2].
Qed.

Lemma reachable_cells_inv (st : Sim) :
  reachable st -> cells_inv (activeCells (world st)).
Proof.
  induction 1 as [rnd Hrnd | rnd st Hreach IH Hlive Hrnd].
  - intros c v Hv. simpl in Hv. rewrite lookup_empty in Hv. discriminate.
  - destruct (reachable_inv st Hreach) as (Hw & Hl).
    rewrite sim_tick_world.
    apply process_ships_cells_inv; try assumption;
      [now apply expire_inv | now apply expire_cells_inv].
Qed.

(** X14. In every reachable state every active cell is a cell of the grid
    and holds from 0 to 15 fish. *)
Theorem active_cells_in_range (st : Sim) :
  reachable st ->
  map_Forall (fun c v => 0 <= c <= POSITION_BOUND /\ 0 <= v <= 15)
    (activeCells (world st)).
Proof. intros Hreach c v Hv. exact (reachable_cells_inv st Hreach c v Hv). Qed.

Lemma active_cells_in_range_witness :
  map_Forall (fun c v => 0 <= c <= POSITION_BOUND /\ 0 <= v <= 15)
    (activeCells (world (sim_tick (fun _ => mkDraws 2 5 7 15 8 8)
                           (init_sim (fun _ => mkInitDraws LAZY 1 42))))).
Proof.
  apply active_cells_in_range. apply reach_tick.
  - apply reach_init. intros i. cbv. repeat split; congruence.
  - reflexivity.
  - intros i. cbv. repeat split; congruence.
Defined.

(** The counter of live ships *)

Lemma live_count_zero (l : list Z) :
  live_count l = 0 <-> Forall (fun ship => getField ship F_STATE = DEAD) l.
Proof.
  induction l as [|ship l IH]; simpl.
  - split; [constructor|reflexivity].
  - pose proof (live_count_bounds l) as Hb. unfold live at 1.
    destruct (Z.eqb_spec (getField ship F_STATE) DEAD) as [Hd|Hd].
    + rewrite Z.add_0_l, IH. split.
      * intros H. now constructor.
      * intros H. now inversion H.
    + split; [lia|]. intros H. inversion H. contradiction.
Qed.

(** X15. In every reachable state the counter [activeShips] is the number
    of ships that are not Dead; it lies between 0 and [SHIP_COUNT], the
    array holds [SHIP_COUNT] ships, and the counter is 0, which ends the
    main loop, exactly when every ship is Dead. *)
Theorem live_ships_counted (st : Sim) :
  reachable st ->
  length (ships st) = Z.to_nat SHIP_COUNT /\
  activeShips (world st) = live_count (ships st) /\
  0 <= activeShips (world st) <= SHIP_COUNT /\
  (activeShips (world st) = 0 <->
   Forall (fun ship => getbits ship STATE_SHIFT MASK_2BIT = DEAD) (ships st)).
Proof.
  intros Hreach. destruct (reachable_activeShips st Hreach) as (Hlen & Hlive & Hb).
  split; [exact Hlen|]. split; [exact Hlive|]. split; [exact Hb|].
  rewrite Hlive. apply live_count_zero.
Qed.

Lemma live_ships_counted_witness :
  activeShips (world (init_sim (fun _ => mkInitDraws GREEDY 2 999999))) =
  live_count (ships (init_sim (fun _ => mkInitDraws GREEDY 2 999999))).
Proof.
  apply live_ships_counted. apply reach_init. intros i. cbv. repeat split; congruence.
Defined.

(** ** Whole trips of one ship *)

Lemma run_ship (o : nat -> nat -> Draws) (st : Sim) (k i : nat) (ship : Z) :
  ships (run k o st) !! i = Some ship ->
  ships (run (S k) o st) !! i =
  Some (snd (update_ship (tick (run k o st)) (o k i)
               (mid_tick (o k) i (run k o st)) ship)).
Proof. intros Hi. simpl. now apply sim_tick_ship. Qed.

(** One step of a floating ship that has not arrived takes one off the
    number of steps left. *)
Lemma floating_steps_left (d : Draws) (ship : Z) :
  ship_inv ship ->
  getField ship F_STATE = FLOATING ->
  0 < Z.abs (offsetX ship) + Z.abs (offsetY ship) ->
  ship_inv (floating d ship) /\
  getField (floating d ship) F_STATE = FLOATING /\
  Z.abs (offsetX (floating d ship)) + Z.abs (offsetY (floating d ship)) =
  Z.abs (offsetX ship) + Z.abs (offsetY ship) - 1.
Proof.
  intros Hs Hst Hm. split; [apply (floating_inv d ship Hs)|].
  destruct Hs as (Hu & Hpos & _).
  assert (Hoff : offsetX ship <> 0 \/ offsetY ship <> 0) by lia.
  destruct (floating_moves d ship Hu Hpos Hoff)
    as (_ & _ & Hst' & _ & _ & Hxp & Hxn & Hyp & Hyn).
  split; [congruence|].
  destruct (Z.lt_total 0 (offsetX ship)) as [Hx|[Hx|Hx]].
  - destruct (Hxp Hx) as (-> & -> & _). lia.
  - destruct (Z.lt_total 0 (offsetY ship)) as [Hy|[Hy|Hy]]; [|lia|].
    + destruct (Hyp (eq_sym Hx) Hy) as (-> & -> & _). lia.
    + destruct (Hyn (eq_sym Hx) Hy) as (-> & -> & _). lia.
  - destruct (Hxn Hx) as (-> & -> & _). lia.
Qed.

(** X16. A floating ship with offsets [x] and [y] floats for exactly
    [|x| + |y|] ticks, one step per tick, whatever the other ships and the
    draws do; the tick after that it is Fishing. *)
Theorem floating_trip (o : nat -> nat -> Draws) (st : Sim) (i : nat) (ship : Z) :
  ships st !! i = Some ship ->
  ship_inv ship ->
  getField ship F_STATE = FLOATING ->
  let steps := Z.abs (offsetX ship) + Z.abs (offsetY ship) in
  (forall k : nat, Z.of_nat k <= steps ->
     exists ship_k : Z,
       ships (run k o st) !! i = Some ship_k /\
       getField ship_k F_STATE = FLOATING /\
       Z.abs (offsetX ship_k) + Z.abs (offsetY ship_k) = steps - Z.of_nat k) /\
  (exists ship' : Z,
     ships (run (S (Z.to_nat steps)) o st) !! i = Some ship' /\
     getField ship' F_STATE = FISHING /\
     offsetX ship' = 0 /\ offsetY ship' = 0).
Proof.
  intros Hi Hs Hst steps.
  assert (Hrun : forall k : nat, Z.of_nat k <= steps ->
            exists ship_k : Z,
              ships (run k o st) !! i = Some ship_k /\ ship_inv ship_k /\
              getField ship_k F_STATE = FLOATING /\
              Z.abs (offsetX ship_k) + Z.abs (offsetY ship_k) = steps - Z.of_nat k).
  { induction k as [|k IH]; intros Hk.
    - exists ship. simpl. repeat split; try assumption; try apply Hs. lia.
    - destruct IH as (sk & Hik & Hsk & Hstk & Hmk); [lia|].
      destruct (floating_steps_left (o k i) sk Hsk Hstk ltac:(lia)) as (H1 & H2 & H3).
      exists (floating (o k i) sk).
      rewrite (run_ship o st k i sk Hik), update_ship_floating by assumption.
      cbn [snd]. split; [reflexivity|]. split; [assumption|]. split; [assumption|]. lia. }
  split.
  - intros k Hk. destruct (Hrun k Hk) as (sk & H1 & _ & H2 & H3). eauto.
  - destruct (Hrun (Z.to_nat steps) ltac:(lia)) as (sn & Hin & Hsn & Hstn & Hmn).
    assert (Hx : offsetX sn = 0) by lia. assert (Hy : offsetY sn = 0) by lia.
    exists (floating (o (Z.to_nat steps) i) sn).
    rewrite (run_ship o st _ i sn Hin), update_ship_floating by assumption.
    cbn [snd]. split; [reflexivity|].
    rewrite floating_arrives by assumption.
    rewrite !offsetX_getField, !offsetY_getField in *.
    destruct Hsn as (Hu & _). read_fields. repeat split; assumption || reflexivity.
Qed.

Lemma floating_trip_witness :
  exists ship' : Z,
    ships (run 4 (fun _ _ => mkDraws 2 5 7 15 8 8)
             (mkSim [withField (withField (withField 0 F_OFFSET_X 10) F_OFFSET_Y 7)
                       F_POSITION 5] init_world 1)) !! 0%nat = Some ship' /\
    getField ship' F_STATE = FISHING.
Proof.
  set (ship := withField (withField (withField 0 F_OFFSET_X 10) F_OFFSET_Y 7) F_POSITION 5).
  assert (Hs : ship_inv ship) by (vm_compute; repeat split; congruence).
  destruct (floating_trip (fun _ _ => mkDraws 2 5 7 15 8 8)
              (mkSim [ship] init_world 1) 0 ship eq_refl Hs eq_refl)
    as (_ & ship' & H1 & H2 & _).
  exists ship'. split; [exact H1 | exact H2].
Defined.

(** X17. A finishing ship on column [col] of its row moves one cell to the
    right per tick for [WIDTH - 1 - col] ticks, staying in its row, and is
    Dead, on the last cell of the row, the tick after. *)
Theorem finishing_trip (o : nat -> nat -> Draws) (st : Sim) (i : nat) (ship : Z) :
  ships st !! i = Some ship ->
  ship_inv ship ->
  getField ship F_STATE = FINISHING ->
  let p := getField ship F_POSITION in
  let steps := WIDTH - 1 - p mod WIDTH in
  (forall k : nat, Z.of_nat k <= steps ->
     exists ship_k : Z,
       ships (run k o st) !! i = Some ship_k /\
       getField ship_k F_STATE = FINISHING /\
       getField ship_k F_POSITION = p + Z.of_nat k /\
       (p + Z.of_nat k) / WIDTH = p / WIDTH) /\
  (exists ship' : Z,
     ships (run (S (Z.to_nat steps)) o st) !! i = Some ship' /\
     getField ship' F_STATE = DEAD /\
     getField ship' F_POSITION = p + steps /\
     (p + steps) mod WIDTH = WIDTH - 1).
Proof.
  intros Hi Hs Hst p steps.
  assert (Hm : 0 <= p mod WIDTH < WIDTH) by (apply Z.mod_pos_bound; reflexivity).
  assert (HW : WIDTH = 1000) by reflexivity.
  assert (Hrun : forall k : nat, Z.of_nat k <= steps ->
            exists ship_k : Z,
              ships (run k o st) !! i = Some ship_k /\ ship_inv ship_k /\
              getField ship_k F_STATE = FINISHING /\
              getField ship_k F_POSITION = p + Z.of_nat k).
  { induction k as [|k IH]; intros Hk.
    - exists ship. simpl. rewrite Z.add_0_r. repeat split; try assumption; apply Hs.
    - destruct IH as (sk & Hik & Hsk & Hstk & Hpk); [lia|].
      destruct (finishing_inv (mid_tick (o k) i (run k o st)) sk Hsk) as (Hinv & _).
      exists (snd (finishing (mid_tick (o k) i (run k o st)) sk)).
      rewrite (run_ship o st k i sk Hik), update_ship_finishing by assumption.
      split; [reflexivity|]. split; [assumption|].
      destruct Hsk as (Hu & Hpos & _).
      rewrite finishing_spec by assumption. rewrite Hpk.
      destruct (Z.eqb_spec ((p + Z.of_nat k) mod WIDTH) (WIDTH - 1)) as [Hlast|Hlast].
      + exfalso. subst steps. rewrite HW in *. Z.div_mod_to_equations. lia.
      + cbn [snd].
        assert (Hfit : getField (withField sk F_POSITION (p + Z.of_nat k + 1)) F_POSITION
                       = p + Z.of_nat k + 1).
        { apply getField_withField_fits; [assumption|].
          rewrite Hpk in Hpos. simpl.
          unfold MASK_34BIT, POSITION_BOUND, WIDTH, HEIGHT in *.
          destruct (field_ranges ship) as (_ & _ & _ & _ & Hp & _). fold p in Hp. lia. }
        rewrite Hfit. read_fields. split; [assumption | lia]. }
  split.
  - intros k Hk. destruct (Hrun k Hk) as (sk & H1 & _ & H2 & H3).
    exists sk. repeat split; try assumption.
    subst steps. rewrite HW in *. Z.div_mod_to_equations. lia.
  - destruct (Hrun (Z.to_nat steps) ltac:(lia)) as (sn & Hin & Hsn & Hstn & Hpn).
    rewrite Z2Nat.id in Hpn by lia.
    assert (Hend : (p + steps) mod WIDTH = WIDTH - 1).
    { subst steps. rewrite HW in *. Z.div_mod_to_equations. lia. }
    exists (snd (finishing (mid_tick (o (Z.to_nat steps)) i (run (Z.to_nat steps) o st)) sn)).
    rewrite (run_ship o st _ i sn Hin), update_ship_finishing by assumption.
    split; [reflexivity|].
    destruct Hsn as (Hu & Hpos & _).
    rewrite finishing_spec by assumption. rewrite Hpn, Hend, Z.eqb_refl. cbn [snd].
    read_fields. repeat split; assumption || reflexivity.
Qed.

Lemma finishing_trip_witness :
  exists ship' : Z,
    ships (run 3 (fun _ _ => mkDraws 2 5 7 15 8 8)
             (mkSim [withField (withField 0 F_STATE FINISHING) F_POSITION 2997]
                init_world 1)) !! 0%nat = Some ship' /\
    getField ship' F_STATE = DEAD /\
    getField ship' F_POSITION = 2999.
Proof.
  set (ship := withField (withField 0 F_STATE FINISHING) F_POSITION 2997).
  assert (Hs : ship_inv ship) by (vm_compute; repeat split; congruence).
  destruct (finishing_trip (fun _ _ => mkDraws 2 5 7 15 8 8)
              (mkSim [ship] init_world 1) 0 ship eq_refl Hs eq_refl)
    as (_ & ship' & H1 & H2 & H3 & _).
  exists ship'. split; [exact H1|]. split; [exact H2 | exact H3].
Defined.

Lemma restless_no_win (T : Z) (d : Draws) (w : World) (ship : Z) :
  is_u64 ship ->
  getField ship F_TYPE = RESTLESS ->
  getField ship F_STATE = FISHING ->
  getField ship F_TIMER = 1 ->
  cells_u8 (activeCells w) ->
  let actual :=
    Z.min (u8 (catchRng d)) (stored_before d w (getField ship F_POSITION)) in
  getField ship F_FISH + actual < WIN_FISH_COUNT ->
  snd (update_ship T d w ship) =
  withField (withField (withField (withField ship F_TIMER 0)
    F_FISH (getField ship F_FISH + actual)) F_OFFSET_X (1 + 8)) F_STATE FLOATING.
Proof.
  intros Hu Hty Hst Ht Hc actual Hlow.
  rewrite update_ship_fishing by assumption. rewrite Hty.
  rewrite fishing_no_win by assumption. reflexivity.
Qed.

(** X18. The cycle of a Restless ship that has arrived on a cell (both
    offsets zero) and whose countdown fires without winning: two ticks later
    it floats one cell further in linear order (from the last cell of the
    grid to cell 0), both offsets zero again and the catch added to its
    total; the third tick it is Fishing on that cell. *)
Theorem restless_cycle (o : nat -> nat -> Draws) (st : Sim) (i : nat) (ship : Z) :
  world_inv (world st) ->
  Forall ship_inv (ships st) ->
  ships st !! i = Some ship ->
  getField ship F_TYPE = RESTLESS ->
  getField ship F_STATE = FISHING ->
  getField ship F_TIMER = 1 ->
  offsetX ship = 0 -> offsetY ship = 0 ->
  let p := getField ship F_POSITION in
  let actual :=
    Z.min (u8 (catchRng (o 0%nat i)))
      (stored_before (o 0%nat i) (mid_tick (o 0%nat) i st) p) in
  getField ship F_FISH + actual < WIN_FISH_COUNT ->
  exists ship2 ship3 : Z,
    ships (run 2 o st) !! i = Some ship2 /\
    getField ship2 F_STATE = FLOATING /\
    offsetX ship2 = 0 /\ offsetY ship2 = 0 /\
    getField ship2 F_POSITION = (if p =? POSITION_BOUND then 0 else p + 1) /\
    getField ship2 F_FISH = getField ship F_FISH + actual /\
    ships (run 3 o st) !! i = Some ship3 /\
    getField ship3 F_STATE = FISHING /\
    getField ship3 F_POSITION = getField ship2 F_POSITION.
Proof.
  intros Hw Hl Hi Hty Hst Ht Hx Hy p actual Hlow.
  assert (Hs : ship_inv ship).
  { rewrite Forall_forall in Hl. apply Hl. eapply list_elem_of_lookup_2, Hi. }
  destruct Hs as (Hu & Hpos & Hfish).
  pose proof (mid_tick_inv (o 0%nat) i st Hw Hl) as (_ & _ & _ & Hc).
  pose proof (stored_before_range (o 0%nat i) (mid_tick (o 0%nat) i st) p Hc) as Hprior.
  pose proof (u8_range (catchRng (o 0%nat i))) as Hreq.
  destruct (field_ranges ship) as (_ & _ & _ & Hf & Hp & _). fold p in Hp, Hpos.
  assert (HW : WIN_FISH_COUNT = 10000) by reflexivity.
  (* first tick: the catch *)
  set (ship1 := withField (withField (withField (withField ship F_TIMER 0)
                  F_FISH (getField ship F_FISH + actual)) F_OFFSET_X (1 + 8))
                  F_STATE FLOATING).
  assert (H1 : ships (run 1 o st) !! i = Some ship1).
  { rewrite (run_ship o st 0 i ship Hi). simpl run. f_equal.
    now apply restless_no_win. }
  rewrite offsetX_getField in Hx. rewrite offsetY_getField in Hy.
  assert (Hu1 : is_u64 ship1) by (subst ship1; field_side).
  assert (Hst1 : getField ship1 F_STATE = FLOATING) by (subst ship1; now read_fields).
  assert (Hp1 : getField ship1 F_POSITION = p) by (subst ship1; now read_fields).
  assert (Hf1 : getField ship1 F_FISH = getField ship F_FISH + actual).
  { subst ship1. read_fields. reflexivity. }
  assert (Hx1 : offsetX ship1 = 1).
  { rewrite offsetX_getField. subst ship1. read_fields. reflexivity. }
  assert (Hy1 : offsetY ship1 = 0).
  { rewrite offsetY_getField. subst ship1. read_fields. lia. }
  (* second tick: one step to the right *)
  assert (Hpos1 : getField ship1 F_POSITION <= POSITION_BOUND) by (rewrite Hp1; exact Hpos).
  destruct (floating_moves (o 1%nat i) ship1 Hu1 Hpos1 ltac:(left; lia))
    as (Hu2 & _ & Hst2 & _ & Hf2 & Hxp & _).
  destruct (Hxp ltac:(lia)) as (Hx2 & Hy2 & Hp2).
  set (ship2 := floating (o 1%nat i) ship1) in *.
  assert (H2 : ships (run 2 o st) !! i = Some ship2).
  { rewrite (run_ship o st 1 i ship1 H1). now rewrite update_ship_floating. }
  (* third tick: arrival *)
  assert (Hx2' : offsetX ship2 = 0) by lia.
  assert (Hy2' : offsetY ship2 = 0) by lia.
  exists ship2, (floating (o 2%nat i) ship2).
  rewrite (run_ship o st 2 i ship2 H2), update_ship_floating by congruence.
  rewrite floating_arrives by assumption. read_fields.
  rewrite Hp1 in Hp2.
  repeat split; try assumption; try congruence; reflexivity.
Qed.

Lemma restless_cycle_witness :
  exists ship2 : Z,
    ships (run 2 (fun _ _ => mkDraws 2 5 7 15 8 8)
             (mkSim [withField (withField (withField (withField (withField (withField 0
                       F_TYPE RESTLESS) F_STATE FISHING) F_TIMER 1)
                       F_OFFSET_X 8) F_OFFSET_Y 8) F_POSITION 999]
                init_world 1)) !! 0%nat = Some ship2 /\
    getField ship2 F_POSITION = 1000.
Proof.
  set (ship := withField (withField (withField (withField (withField (withField 0
                 F_TYPE RESTLESS) F_STATE FISHING) F_TIMER 1)
                 F_OFFSET_X 8) F_OFFSET_Y 8) F_POSITION 999).
  set (o := fun _ _ : nat => mkDraws 2 5 7 15 8 8).
  assert (Hs : ship_inv ship) by (vm_compute; repeat split; congruence).
  assert (Hl : Forall ship_inv (ships (mkSim [ship] init_world 1)))
    by (repeat constructor; apply Hs).
  assert (Hlow : getField ship F_FISH +
            Z.min (u8 (catchRng (o 0%nat 0%nat)))
              (stored_before (o 0%nat 0%nat)
                 (mid_tick (o 0%nat) 0 (mkSim [ship] init_world 1))
                 (getField ship F_POSITION)) < WIN_FISH_COUNT)
    by (vm_compute; reflexivity).
  destruct (restless_cycle o (mkSim [ship] init_world 1) 0 ship init_world_inv Hl
              eq_refl eq_refl eq_refl eq_refl eq_refl eq_refl Hlow)
    as (ship2 & _ & H2 & _ & _ & _ & Hp & _).
  exists ship2. split; [exact H2|]. rewrite Hp. vm_compute. reflexivity.
Defined.

(** ** The renderer *)

Lemma fish_color_green (fish : Z) :
  0 <= fish < 256 ->
  fishColorFromAmount fish = (0, 50 + Z.min fish 15 * 205 / 15, 0).
Proof.
  intros Hf. unfold fishColorFromAmount.
  assert (E : (if 15 <? fish then 15 else fish) = Z.min fish 15)
    by (destruct (Z.ltb_spec 15 fish); lia).
  rewrite E. change (255 - 50) with 205.
  rewrite Z.quot_div_nonneg by lia.
  rewrite u8_small; [reflexivity|].
  assert (0 <= Z.min fish 15 * 205 / 15 <= 205).
  { split; [apply Z.div_pos; lia|]. apply Z.div_le_upper_bound; lia. }
  lia.
Qed.

(** X19. The colour of a cell is a pure green between 50 and 255: 50 for an
    empty cell, 255 for 15 fish or more (the amount is cut at 15), and the
    8-bit cast never wraps. *)
Theorem fish_color_range (fish : Z) :
  0 <= fish < 256 ->
  let '(r, g, b) := fishColorFromAmount fish in
  r = 0 /\ b = 0 /\ 50 <= g <= 255 /\
  g = 50 + Z.min fish 15 * 205 / 15 /\
  (fish = 0 -> g = 50) /\
  (15 <= fish -> g = 255).
Proof.
  intros Hf. rewrite fish_color_green by assumption.
  assert (0 <= Z.min fish 15 * 205 / 15 <= 205).
  { split; [apply Z.div_pos; lia|]. apply Z.div_le_upper_bound; lia. }
  repeat split; try lia.
  - intros ->. reflexivity.
  - intros Hge. rewrite Z.min_r by lia. reflexivity.
Qed.

Lemma fish_color_range_witness :
  let '(r, g, b) := fishColorFromAmount 200 in g = 255.
Proof.
  assert (Hf : 0 <= 200 < 256) by lia.
  pose proof (fish_color_range 200 Hf) as H.
  destruct (fishColorFromAmount 200) as [[r g] b].
  destruct H as (_ & _ & _ & _ & _ & Hmax). apply Hmax. lia.
Defined.

(** X20. More fish never gives a darker green, and two different amounts
    from 0 to 15 give two different greens. *)
Theorem fish_color_monotone (fish1 fish2 : Z) :
  0 <= fish1 -> fish1 <= fish2 -> fish2 < 256 ->
  let g1 := snd (fst (fishColorFromAmount fish1)) in
  let g2 := snd (fst (fishColorFromAmount fish2)) in
  g1 <= g2 /\ (fish1 < fish2 -> fish2 <= 15 -> g1 < g2).
Proof.
  intros H1 H12 H2.
  rewrite !fish_color_green by lia. cbn [fst snd].
  split.
  - assert (Z.min fish1 15 * 205 / 15 <= Z.min fish2 15 * 205 / 15)
      by (apply Z.div_le_mono; lia).
    lia.
  - intros Hlt Hle. rewrite !Z.min_l by lia.
    Z.div_mod_to_equations. lia.
Qed.

Lemma fish_color_monotone_witness :
  snd (fst (fishColorFromAmount 3)) < snd (fst (fishColorFromAmount 4)).
Proof.
  destruct (fish_color_monotone 3 4 ltac:(lia) ltac:(lia) ltac:(lia)) as (_ & H).
  apply H; lia.
Defined.

(** X21. What the renderer reads from a ship of a reachable state: the
    position field the simulation writes, as a column below [WIDTH] and a
    row below [HEIGHT] with [row * WIDTH + column] the position.  A ship
    whose cell centre is outside the view is skipped; one inside the view
    gets a shape by its state, a dot when Floating, a square when Fishing, a
    triangle when Finishing.  So no shape is drawn exactly when the ship is
    outside the view or Dead. *)
Theorem renderer_reads_ships (st : Sim) :
  reachable st ->
  Forall (fun ship =>
            let '(x, y) := ship_cell WIDTH ship in
            0 <= x < WIDTH /\ 0 <= y < HEIGHT /\
            y * WIDTH + x = getbits ship POSITION_SHIFT MASK_34BIT /\
            forall outsideView : bool,
            (ship_glyph outsideView ship = Some Dot <->
             outsideView = false /\ getbits ship STATE_SHIFT MASK_2BIT = FLOATING) /\
            (ship_glyph outsideView ship = Some Square <->
             outsideView = false /\ getbits ship STATE_SHIFT MASK_2BIT = FISHING) /\
            (ship_glyph outsideView ship = Some Triangle <->
             outsideView = false /\ getbits ship STATE_SHIFT MASK_2BIT = FINISHING) /\
            (ship_glyph outsideView ship = None <->
             outsideView = true \/ getbits ship STATE_SHIFT MASK_2BIT = DEAD))
    (ships st).
Proof.
  intros Hreach. destruct (reachable_inv st Hreach) as (_ & Hl).
  eapply Forall_impl; [exact Hl|]. intros ship (Hu & Hpos & _).
  unfold ship_cell, cell_xy, ship_glyph.
  change (Z.land (Z.shiftr ship 20) 17179869183) with (getField ship F_POSITION).
  change (Z.land (Z.shiftr ship 2) 3) with (getField ship F_STATE).
  fold_fields. rewrite (u8_field2 ship F_STATE) by reflexivity.
  destruct (field_ranges ship) as (_ & _ & _ & _ & Hp & _).
  set (p := getField ship F_POSITION) in *.
  unfold POSITION_BOUND, WIDTH, HEIGHT in *.
  split; [apply Z.mod_pos_bound; lia|].
  split; [split; [apply Z.div_pos; lia | apply Z.div_lt_upper_bound; lia]|].
  split; [pose proof (Z.div_mod p 1000 ltac:(lia)); lia|].
  intros outsideView.
  destruct outsideView, (state_cases ship) as [E|[E|[E|E]]]; rewrite E; cbv;
    intuition congruence.
Qed.

Lemma renderer_reads_ships_witness :
  Forall (fun ship =>
            let '(x, y) := ship_cell WIDTH ship in
            0 <= x < WIDTH /\ 0 <= y < HEIGHT /\
            y * WIDTH + x = getbits ship POSITION_SHIFT MASK_34BIT /\
            forall outsideView : bool,
            (ship_glyph outsideView ship = Some Dot <->
             outsideView = false /\ getbits ship STATE_SHIFT MASK_2BIT = FLOATING) /\
            (ship_glyph outsideView ship = Some Square <->
             outsideView = false /\ getbits ship STATE_SHIFT MASK_2BIT = FISHING) /\
            (ship_glyph outsideView ship = Some Triangle <->
             outsideView = false /\ getbits ship STATE_SHIFT MASK_2BIT = FINISHING) /\
            (ship_glyph outsideView ship = None <->
             outsideView = true \/ getbits ship STATE_SHIFT MASK_2BIT = DEAD))
    (ships (init_sim (fun _ => mkInitDraws GREEDY 2 999999))).
Proof.
  apply renderer_reads_ships. apply reach_init. intros i.
  cbv. repeat split; congruence.
Defined.

(** X22. What the renderer reads from the active cells of a reachable
    state: every cell has a column below [WIDTH] and a row below [HEIGHT]
    that give its index back, and its amount is below the cut at 15, so its
    green is 50 plus the amount times 205 over 15, rounded down. *)
Theorem renderer_reads_cells (st : Sim) :
  reachable st ->
  map_Forall (fun pos fish =>
                let '(x, y) := cell_xy WIDTH pos in
                0 <= x < WIDTH /\ 0 <= y < HEIGHT /\ y * WIDTH + x = pos /\
                fishColorFromAmount fish = (0, 50 + fish * 205 / 15, 0))
    (activeCells (world st)).
Proof.
  intros Hreach pos fish Hv.
  destruct (reachable_cells_inv st Hreach pos fish Hv) as (Hpos & Hfish).
  unfold cell_xy. unfold POSITION_BOUND, WIDTH, HEIGHT in *.
  split; [apply Z.mod_pos_bound; lia|].
  split; [split; [apply Z.div_pos; lia | apply Z.div_lt_upper_bound; lia]|].
  split; [pose proof (Z.div_mod pos 1000 ltac:(lia)); lia|].
  rewrite fish_color_green by lia. now rewrite Z.min_l by lia.
Qed.

Lemma renderer_reads_cells_witness :
  map_Forall (fun pos fish =>
                let '(x, y) := cell_xy WIDTH pos in
                0 <= x < WIDTH /\ 0 <= y < HEIGHT /\ y * WIDTH + x = pos /\
                fishColorFromAmount fish = (0, 50 + fish * 205 / 15, 0))
    (activeCells (world (sim_tick (fun _ => mkDraws 2 5 7 15 8 8)
                           (init_sim (fun _ => mkInitDraws LAZY 1 42))))).
Proof.
  apply renderer_reads_cells. apply reach_tick.
  - apply reach_init. intros i. cbv. repeat split; congruence.
  - reflexivity.
  - intros i. cbv. repeat split; congruence.
Defined.

(** ** What an update leaves alone *)



(** ** Ships over many ticks *)

(** X24. Dead is final: the record of a Dead ship is the same after any
    number of ticks. *)
Theorem dead_is_final (o : nat -> nat -> Draws) (st : Sim) (i : nat) (ship : Z) (k : nat) :
  ships st !! i = Some ship ->
  getField ship F_STATE = DEAD ->
  ships (run k o st) !! i = Some ship.
Proof.
  intros Hi Hst. induction k as [|k IH]; [exact Hi|].
  rewrite (run_ship o st k i ship IH). now rewrite update_ship_dead.
Qed.

Lemma dead_is_final_witness :
  ships (run 5 (fun _ _ => mkDraws 2 5 7 15 8 8)
           (mkSim [withField 0 F_STATE DEAD] init_world 1)) !! 0%nat =
  Some (withField 0 F_STATE DEAD).
Proof.
  apply (dead_is_final (fun _ _ => mkDraws 2 5 7 15 8 8)
           (mkSim [withField 0 F_STATE DEAD] init_world 1) 0
           (withField 0 F_STATE DEAD) 5); reflexivity.
Defined.

Lemma run_inv (o : nat -> nat -> Draws) (st : Sim) (k : nat) :
  world_inv (world st) -> Forall ship_inv (ships st) ->
  world_inv (world (run k o st)) /\ Forall ship_inv (ships (run k o st)).
Proof.
  intros Hw Hl. induction k as [|k [IHw IHl]]; [now split|].
  simpl. destruct (sim_tick_inv (o k) (run k o st) IHw IHl) as (H1 & H2 & _).
  now split.
Qed.

(** X25. A Lazy ship never floats: from the tick it is Fishing on cell [p]
    it stays Fishing on [p], whatever is drawn, until the tick its total
    reaches the winning count, and from then on it is Finishing or Dead. *)
Theorem lazy_never_moves (o : nat -> nat -> Draws) (st : Sim) (i : nat) (ship : Z)
    (k : nat) :
  world_inv (world st) ->
  Forall ship_inv (ships st) ->
  ships st !! i = Some ship ->
  getField ship F_TYPE = LAZY ->
  getField ship F_STATE = FISHING ->
  exists ship_k : Z,
    ships (run k o st) !! i = Some ship_k /\
    getField ship_k F_TYPE = LAZY /\
    getField ship_k F_STATE <> FLOATING /\
    (getField ship_k F_STATE = FISHING ->
     getField ship_k F_POSITION = getField ship F_POSITION).
Proof.
  intros Hw Hl Hi Hty Hst.
  assert (Hrun : exists ship_k : Z,
            ships (run k o st) !! i = Some ship_k /\
            getField ship_k F_TYPE = LAZY /\
            (getField ship_k F_STATE = FISHING /\
             getField ship_k F_POSITION = getField ship F_POSITION \/
             getField ship_k F_STATE = FINISHING \/
             getField ship_k F_STATE = DEAD)).
  { induction k as [|k IH].
    - exists ship. repeat split; auto.
    - destruct IH as (sk & Hik & Htyk & Hcase).
      destruct (run_inv o st k Hw Hl) as (Hwk & Hlk).
      assert (Hsk : ship_inv sk).
      { rewrite Forall_forall in Hlk. apply Hlk. eapply list_elem_of_lookup_2, Hik. }
      pose proof (mid_tick_inv (o k) i (run k o st) Hwk Hlk) as (_ & _ & _ & Hc).
      set (wk := mid_tick (o k) i (run k o st)) in *.
      set (Tk := tick (run k o st)).
      exists (snd (update_ship Tk (o k i) wk sk)).
      split; [now apply run_ship|].
      split; [rewrite update_ship_type by assumption; exact Htyk|].
      destruct (update_ship_state Tk (o k i) wk sk Hsk Hc) as (_ & _ & Hfin & Hdead).
      destruct Hcase as [(Hstk & Hpk) | [Hstk | Hstk]].
      + destruct Hsk as (Hu & Hpos & Hfish).
        rewrite update_ship_fishing by assumption.
        destruct (Z.eq_dec (getField sk F_TIMER) 1) as [Ht|Ht].
        * destruct (fishing_fires Tk (o k i) wk (getField sk F_TYPE) sk Hu Ht Hc)
            as (w' & _ & E).
          rewrite E. cbn [snd]. destruct (_ =? WIN_FISH_COUNT).
          -- right. left. now read_fields.
          -- left. rewrite Htyk. unfold after_catch.
             change (LAZY =? GREEDY) with false. change (LAZY =? LAZY) with true.
             cbv iota. fold_fields. read_fields. now split.
        * left. rewrite fishing_waits by assumption. cbn [snd]. read_fields. now split.
      + right. exact (Hfin Hstk).
      + right. right. rewrite (Hdead Hstk). exact Hstk. }
  destruct Hrun as (sk & H1 & H2 & Hcase). exists sk.
  split; [exact H1|]. split; [exact H2|].
  destruct Hcase as [(Hs & Hp) | [Hs | Hs]]; rewrite Hs;
    (split; [discriminate|]); intros H; try discriminate. exact Hp.
Qed.

Lemma lazy_never_moves_witness :
  exists ship_k : Z,
    ships (run 6 (fun _ _ => mkDraws 2 5 7 15 8 8)
             (mkSim [init_ship (mkInitDraws LAZY 1 42)] init_world 1)) !! 0%nat
      = Some ship_k /\
    getField ship_k F_STATE <> FLOATING.
Proof.
  set (ship := init_ship (mkInitDraws LAZY 1 42)).
  assert (Hs : ship_inv ship) by (vm_compute; repeat split; congruence).
  assert (Hl : Forall ship_inv (ships (mkSim [ship] init_world 1)))
    by (repeat constructor; apply Hs).
  destruct (lazy_never_moves (fun _ _ => mkDraws 2 5 7 15 8 8)
              (mkSim [ship] init_world 1) 0 ship 6 init_world_inv Hl
              eq_refl eq_refl eq_refl) as (sk & H1 & _ & H2 & _).
  exists sk. split; [exact H1 | exact H2].
Defined.
